(** * Median-based nested sampling: a shallow embedding and its properties

    The development follows [src/nested_sampling.py] (the core estimator
    [nested_sampling]) and the level routine of
    [src/refined_nested_sampling.py].

    Numbers.  NumPy works on IEEE doubles.  The main development reads the
    arithmetic of the code over exact numbers: a finite double is a rational
    ([Q]) and the three special values are explicit constructors of
    [float64]; the one place where the code leaves the range of the
    doubles, the underflow of [0.5 ** K], is part of it ([pow_half]).  A
    statement that holds only as long as no operation rounds says "in exact
    arithmetic"; for each of them the module [Double], which reads the same
    code over binary64 numbers with every operation rounded, gives a run of
    the code in doubles on which it fails.

    Randomness.  The ambient generator ([np.random]) is an explicit [source]
    read through a cursor that every draw advances. *)

From Stdlib Require Import QArith Qround Qpower Lia Lqa Bool Arith ZArith List.
From Stdlib Require Import Permutation Sorted Orders Mergesort.
From Stdlib Require Floats.PrimFloat.
Import ListNotations.

Local Open Scope Q_scope.

(** ** Doubles *)

Inductive float64 : Type :=
| NaN
| NegInf
| Fin (q : Q)
| PosInf.

(** [x >= y] on doubles: every comparison with a NaN is false. *)
Definition fge (x y : float64) : bool :=
  match x, y with
  | NaN, _ | _, NaN => false
  | PosInf, _ => true
  | _, NegInf => true
  | Fin p, Fin q => Qle_bool q p
  | Fin _, PosInf => false
  | NegInf, _ => false
  end.

(** [k * a] for a Python int [k] and a double [a]. *)
Definition fmul_int (k : Z) (a : float64) : float64 :=
  match a with
  | NaN => NaN
  | Fin q => Fin (inject_Z k * q)
  | PosInf => match k with Z0 => NaN | Zpos _ => PosInf | Zneg _ => NegInf end
  | NegInf => match k with Z0 => NaN | Zpos _ => NegInf | Zneg _ => PosInf end
  end.

Definition is_finite (x : float64) : bool :=
  match x with Fin _ => true | _ => false end.

(** ** Populations *)

(** An N x n array: a list of N rows of n coordinates. *)
Definition matrix : Type := list (list Q).

Fixpoint row_sum (row : list Q) : Q :=
  match row with
  | [] => 0
  | x :: rest => x + row_sum rest
  end.

(** [X.sum(axis=1)] *)
Definition row_sums (X : matrix) : list Q := map row_sum X.

(** [row[j] = v]; rows of the population all have [n] columns and [j < n]. *)
Fixpoint set_nth (j : nat) (v : Q) (row : list Q) : list Q :=
  match row, j with
  | [], _ => []
  | _ :: rest, O => v :: rest
  | x :: rest, S j' => x :: set_nth j' v rest
  end.

(** Boolean-mask indexing [X[mask]]. *)
Fixpoint mask_select {A : Type} (mask : list bool) (X : list A) : list A :=
  match mask, X with
  | b :: mask', x :: X' =>
      if b then x :: mask_select mask' X' else mask_select mask' X'
  | _, _ => []
  end.

(** [mask.sum()] *)
Definition mask_count (mask : list bool) : nat := length (filter id mask).

(** ** Order statistics (NumPy's [median] and [percentile]) *)

Module QOrder <: TotalLeBool.
Definition t : Type := Q.
Definition leb : t -> t -> bool := Qle_bool.
Theorem leb_total : forall x y, leb x y = true \/ leb y x = true.
Proof.
  intros x y. unfold leb. rewrite !Qle_bool_iff.
  destruct (Qlt_le_dec x y) as [H | H];
    [left; apply Qlt_le_weak, H | right; exact H].
Qed.
End QOrder.

Module QSort := Sort QOrder.

Definition sorted (v : list Q) : list Q := QSort.sort v.

(** [np.median(v)]: the middle order statistic, or the mean of the two
    middle ones when the length is even; NaN on an empty vector. *)
Definition median (v : list Q) : float64 :=
  match v with
  | [] => NaN
  | _ =>
      let s := sorted v in
      let index := (length v / 2)%nat in
      if Nat.odd (length v)
      then Fin (nth index s 0)
      else Fin ((nth (index - 1) s 0 + nth index s 0) / 2)
  end.

(** [np.percentile(v, p)] with the default linear interpolation, on the
    sorted vector [s] of length [N]: the virtual index is [(p/100) * (N-1)],
    and the result interpolates between the order statistics on either side
    of it. *)
Definition lerp_quantile (s : list Q) (N : nat) (p : Q) : Q :=
  let virtual_index := (p / 100) * inject_Z (Z.of_nat (N - 1)) in
  let previous := Qfloor virtual_index in
  let gamma := virtual_index - inject_Z previous in
  let lo := nth (Z.to_nat previous) s 0 in
  let hi := nth (Nat.min (Z.to_nat previous + 1) (N - 1)) s 0 in
  lo + (hi - lo) * gamma.

(** On an empty vector NumPy raises IndexError: there is no value. *)
Definition percentile (v : list Q) (p : Q) : option Q :=
  match v with
  | [] => None
  | _ => Some (lerp_quantile (sorted v) (length v) p)
  end.

(** The inter-quartile density proxy of the level loop:
<<
    q75, q50, q25 = np.percentile(sums, [75, 50, 25])
    if q75 > q50:
        f_u = (N / 2) / (q75 - q50)
        var_median = 1.0 / (4 * N * f_u**2)
    else:
        var_median = np.inf
>>
    [None] when [np.percentile] raises. *)
Definition density_proxy (N : nat) (q75 q50 : Q) : Q :=
  (inject_Z (Z.of_nat N) / 2) / (q75 - q50).

Definition var_median (N : nat) (sums : list Q) : option float64 :=
  match percentile sums 75, percentile sums 50 with
  | Some q75, Some q50 =>
      Some (match q50 ?= q75 with
            | Lt =>
                let f_u := density_proxy N q75 q50 in
                Fin (1 / (4 * inject_Z (Z.of_nat N) * f_u ^ 2))
            | _ => PosInf
            end)
  | _, _ => None
  end.

(** ** The random source *)

(** [gauss k] is the value of the k-th draw when it is a standard normal,
    [pick k] its raw value when it is an index: the draw taken at cursor
    [k] from [{0,...,m-1}] is [pick k mod m]. *)
Record source : Type := {
  gauss : nat -> Q;
  pick : nat -> nat
}.

Inductive error : Type :=
| ValueError
| IndexError
| ZeroDivisionError.

(** [np.random.randn(N)] read at cursor [c]. *)
Definition randn_vec (src : source) (N c : nat) : list Q :=
  map (gauss src) (seq c N).

(** [np.random.randn(N, n)] read at cursor [c], row by row. *)
Definition randn_mat (src : source) (N n c : nat) : matrix :=
  map (fun i => randn_vec src n (c + i * n)) (seq 0 N).

(** [np.random.choice(m, size=N, replace=True)]: NumPy raises ValueError
    when the population is empty and samples are requested. *)
Definition choice (src : source) (m N c : nat) : option (list nat) :=
  if (m =? 0)%nat && negb (N =? 0)%nat
  then None
  else Some (map (fun k => (pick src k mod m)%nat) (seq c N)).

(** ** Selection and resampling *)

(** [survivors = X[sums >= u_next]] *)
Definition select (X : matrix) (sums : list Q) (u : float64) : matrix :=
  mask_select (map (fun s => fge (Fin s) u) sums) X.

(** [survivors[indices].copy()] *)
Definition gather (survivors : matrix) (indices : list nat) : matrix :=
  map (fun i => nth i survivors []) indices.

Definition resample (src : source) (N c : nat) (survivors : matrix)
  : option matrix :=
  match choice src (length survivors) N c with
  | None => None
  | Some indices => Some (gather survivors indices)
  end.

(** ** The Gibbs pass of [nested_sampling]

    One coordinate [j], for one row and its proposal: the row sum is
    recomputed from the row itself ([current_sums = X.sum(axis=1)] is taken
    afresh for every [j]). *)
Definition gibbs_row (u : float64) (j : nat) (row : list Q) (p : Q)
  : list Q * bool :=
  let current_sum := row_sum row in
  let new_sum := current_sum - nth j row 0 + p in
  let accept := fge (Fin new_sum) u in
  (if accept then set_nth j p row else row, accept).

Definition gibbs_coord (u : float64) (j : nat) (X : matrix)
  (proposals : list Q) : matrix * nat :=
  let updated := map (fun rp => gibbs_row u j (fst rp) (snd rp))
                     (combine X proposals) in
  (map fst updated, mask_count (map snd updated)).

(** [for j in coords: ...], with [proposals j] the vector drawn for
    coordinate [j]; the accumulator is [(X, total_accepts)]. *)
Fixpoint gibbs_loop (u : float64) (coords : list nat)
  (proposals : nat -> list Q) (X : matrix) (total_accepts : nat)
  : matrix * nat :=
  match coords with
  | [] => (X, total_accepts)
  | j :: rest =>
      let '(X', accepted) := gibbs_coord u j X (proposals j) in
      gibbs_loop u rest proposals X' (total_accepts + accepted)
  end.

Definition gibbs_pass (u : float64) (n : nat) (proposals : nat -> list Q)
  (X : matrix) : matrix * nat :=
  gibbs_loop u (seq 0 n) proposals X 0%nat.

(** ** The Gibbs pass of [refined_nested_sampling]

    [current_sums] is computed once before the loop and is then kept up to
    date: [current_sums[accept_mask] = new_sums[accept_mask]]. *)
Definition refined_row (u : float64) (j : nat) (row : list Q)
  (current_sum p : Q) : (list Q * Q) * bool :=
  let new_sum := current_sum - nth j row 0 + p in
  let accept := fge (Fin new_sum) u in
  (if accept then set_nth j p row else row,
   if accept then new_sum else current_sum,
   accept).

Definition refined_coord (u : float64) (j : nat) (samples : matrix)
  (current_sums prop : list Q) : (matrix * list Q) * nat :=
  let updated := map (fun t => refined_row u j (fst (fst t)) (snd (fst t)) (snd t))
                     (combine (combine samples current_sums) prop) in
  (map (fun t => fst (fst t)) updated,
   map (fun t => snd (fst t)) updated,
   mask_count (map snd updated)).

Fixpoint refined_loop (u : float64) (coords : list nat)
  (prop : nat -> list Q) (samples : matrix) (current_sums : list Q)
  (total_accept : nat) : (matrix * list Q) * nat :=
  match coords with
  | [] => (samples, current_sums, total_accept)
  | j :: rest =>
      let '(samples', sums', accepted) :=
        refined_coord u j samples current_sums (prop j) in
      refined_loop u rest prop samples' sums' (total_accept + accepted)
  end.

Definition refined_pass (u : float64) (n : nat) (prop : nat -> list Q)
  (samples : matrix) : matrix * nat :=
  let current_sums := row_sums samples in
  let '(samples', _, total_accept) :=
    refined_loop u (seq 0 n) prop samples current_sums 0%nat in
  (samples', total_accept).

(** ** The level loop of [nested_sampling] *)

Record state : Type := {
  X : matrix;
  thresholds : list float64;
  vars_median : list float64;
  accept_rates : list float64;
  iteration : nat;
  cursor : nat
}.

Record result : Type := {
  probability : Q;
  K : nat;
  res_thresholds : list float64;
  res_vars_median : list float64;
  res_accept_rates : list float64;
  final_samples : matrix
}.

(** [total_accepts / (N * n)].  With [n = 0] the loop over coordinates never
    runs, the counter is still the Python int 0 and the division raises;
    otherwise the counter is a NumPy integer and a zero divisor gives NaN. *)
Definition accept_rate (total_accepts N n : nat) : option float64 :=
  if (n =? 0)%nat then None
  else if (N =? 0)%nat then Some NaN
  else Some (Fin (inject_Z (Z.of_nat total_accepts)
                  / inject_Z (Z.of_nat (N * n)))).

Inductive step : Type :=
| Break (s : state)
| Next (s : state)
| Raise (e : error).

(** The proposal vectors of one Gibbs pass whose first draw is at cursor
    [c1]: [np.random.randn(N)] is called once per coordinate. *)
Definition proposals_at (src : source) (N c1 : nat) : nat -> list Q :=
  fun j => randn_vec src N (c1 + j * N).

(** The second half of the body of [while True], entered when the
    threshold [u_next] is below the target: selection, resampling, the
    Gibbs pass and the bookkeeping, with the records [ths] and [vars] as
    extended in the first half. *)
Definition advance (src : source) (n N : nat) (u_next : float64)
  (ths vars : list float64) (st : state) : step :=
  let survivors := select (X st) (row_sums (X st)) u_next in
  match resample src N (cursor st) survivors with
  | None => Raise ValueError
  | Some X1 =>
      let c1 := (cursor st + N)%nat in
      let proposals := proposals_at src N c1 in
      let '(X2, total_accepts) := gibbs_pass u_next n proposals X1 in
      match accept_rate total_accepts N n with
      | None => Raise ZeroDivisionError
      | Some rate =>
          Next {| X := X2; thresholds := ths; vars_median := vars;
                  accept_rates := accept_rates st ++ [rate];
                  iteration := S (iteration st);
                  cursor := (c1 + n * N)%nat |}
      end
  end.

(** One iteration of the body of [while True]: the threshold and its
    variance are recorded, then the loop breaks or the level is advanced.
    On an empty population [np.percentile] raises. *)
Definition level (src : source) (n N : nat) (target : float64) (st : state)
  : step :=
  let sums := row_sums (X st) in
  let u_next := median sums in
  let ths := thresholds st ++ [u_next] in
  match var_median N sums with
  | None => Raise IndexError
  | Some v =>
      let vars := vars_median st ++ [v] in
      if fge u_next target
      then Break {| X := X st; thresholds := ths; vars_median := vars;
                    accept_rates := accept_rates st;
                    iteration := iteration st; cursor := cursor st |}
      else advance src n N u_next ths vars st
  end.

(** What a call has done after at most [fuel] iterations of the loop. *)
Inductive outcome : Type :=
| Returned (r : result)
| Raised (e : error)
| Running (s : state).

(** The double [0.5 ** K].  The power of two [2^-K] is a double down to
    the smallest subnormal, [2^-1074]; [2^-1075] lies half-way between 0 and
    that subnormal and rounds to 0, and so does every smaller power. *)
Definition pow_half (K : nat) : Q :=
  if (K <=? 1074)%nat then (1 # 2) ^ Z.of_nat K else 0.

(** The code after the loop: [K = iteration; prob = 0.5 ** K]. *)
Definition finish (st : state) : result :=
  {| probability := pow_half (iteration st);
     K := iteration st;
     res_thresholds := thresholds st;
     res_vars_median := vars_median st;
     res_accept_rates := accept_rates st;
     final_samples := X st |}.

Fixpoint level_loop (fuel : nat) (src : source) (n N : nat)
  (target : float64) (st : state) : outcome :=
  match fuel with
  | O => Running st
  | S fuel' =>
      match level src n N target st with
      | Break st' => Returned (finish st')
      | Raise e => Raised e
      | Next st' => level_loop fuel' src n N target st'
      end
  end.

(** The state in which the loop is entered: [X = np.random.randn(N, n)],
    empty records, [iteration = 0]. *)
Definition initial (src : source) (n N : nat) : state :=
  {| X := randn_mat src N n 0; thresholds := []; vars_median := [];
     accept_rates := []; iteration := 0; cursor := (N * n)%nat |}.

(** [nested_sampling(n, a, N)] run for at most [fuel] iterations.
    [np.random.randn(N, n)] raises ValueError on a negative dimension. *)
Definition nested_sampling (fuel : nat) (src : source) (n : Z) (a : float64)
  (N : Z) : outcome :=
  let target := fmul_int n a in
  if (N <? 0)%Z || (n <? 0)%Z then Raised ValueError
  else level_loop fuel src (Z.to_nat n) (Z.to_nat N) target
         (initial src (Z.to_nat n) (Z.to_nat N)).

(** ** The one-dimensional estimator ([run_1d_example.py])

    [nested_sampling_1d(a, N)] keeps an N x 1 population, takes the median
    of its only column, and in its Gibbs step accepts a proposal when the
    proposal itself is at or above the threshold. *)

Module OneD.

Record state : Type := {
  X : matrix;
  thresholds : list float64;
  accept_rates : list float64;
  iteration : nat;
  cursor : nat
}.

Record result : Type := {
  probability : Q;
  K : nat;
  res_thresholds : list float64;
  res_accept_rates : list float64
}.

(** [X[:, j]] *)
Definition column (j : nat) (X : matrix) : list Q :=
  map (fun row => nth j row 0) X.

(** [accept = proposals >= u_next; X[accept, 0] = proposals[accept]],
    with [accept.sum()]. *)
Definition gibbs (u : float64) (X : matrix) (proposals : list Q)
  : matrix * nat :=
  let accept := map (fun p => fge (Fin p) u) proposals in
  (map (fun t : list Q * (Q * bool) =>
          if snd (snd t) then set_nth 0 (fst (snd t)) (fst t) else fst t)
       (combine X (combine proposals accept)),
   mask_count accept).

(** [accept.sum() / N]: a NumPy integer over an int, NaN when [N = 0]. *)
Definition accept_rate (total N : nat) : float64 :=
  if (N =? 0)%nat then NaN
  else Fin (inject_Z (Z.of_nat total) / inject_Z (Z.of_nat N)).

Inductive step : Type :=
| Break (s : state)
| Next (s : state)
| Raise (e : error).

(** One iteration of the body of [while True]. *)
Definition level (src : source) (N : nat) (a : float64) (st : state) : step :=
  let u_next := median (column 0 (X st)) in
  let ths := thresholds st ++ [u_next] in
  if fge u_next a
  then Break {| X := X st; thresholds := ths;
                accept_rates := accept_rates st;
                iteration := iteration st; cursor := cursor st |}
  else
    let survivors :=
      mask_select (map (fun x => fge (Fin x) u_next) (column 0 (X st)))
                  (X st) in
    match resample src N (cursor st) survivors with
    | None => Raise ValueError
    | Some X1 =>
        let c1 := (cursor st + N)%nat in
        let proposals := randn_vec src N c1 in
        let '(X2, accepted) := gibbs u_next X1 proposals in
        Next {| X := X2; thresholds := ths;
                accept_rates := accept_rates st ++ [accept_rate accepted N];
                iteration := S (iteration st);
                cursor := (c1 + N)%nat |}
    end.

Inductive outcome : Type :=
| Returned (r : result)
| Raised (e : error)
| Running (s : state).

(** [K = iteration; prob = 0.5 ** K] *)
Definition finish (st : state) : result :=
  {| probability := pow_half (iteration st);
     K := iteration st;
     res_thresholds := thresholds st;
     res_accept_rates := accept_rates st |}.

Fixpoint level_loop (fuel : nat) (src : source) (N : nat) (a : float64)
  (st : state) : outcome :=
  match fuel with
  | O => Running st
  | S fuel' =>
      match level src N a st with
      | Break st' => Returned (finish st')
      | Raise e => Raised e
      | Next st' => level_loop fuel' src N a st'
      end
  end.

(** [X = np.random.randn(N, 1)], empty records, [iteration = 0]. *)
Definition initial (src : source) (N : nat) : state :=
  {| X := randn_mat src N 1 0; thresholds := []; accept_rates := [];
     iteration := 0; cursor := N |}.

(** [nested_sampling_1d(a, N)] run for at most [fuel] iterations. *)
Definition nested_sampling_1d (fuel : nat) (src : source) (a : float64)
  (N : Z) : outcome :=
  if (N <? 0)%Z then Raised ValueError
  else level_loop fuel src (Z.to_nat N) a (initial src (Z.to_nat N)).

End OneD.

(** ** The level loop of the refined script ([refined_nested_sampling.py])

    The script runs at module level with [n = 10], [a = 2.0] and
    [N = 2**18]; here they are parameters.  Its state has the fields of
    [state], with [X] for [samples].  [pdf_sum] is computed with [exp] and
    [sqrt]; the double it returns is taken as a parameter. *)

Module Refined.

(** [rng.integers(0, m, size=N)]: raises ValueError when [m = 0]. *)
Definition integers (src : source) (m N c : nat) : option (list nat) :=
  if (m =? 0)%nat then None
  else Some (map (fun k => (pick src k mod m)%nat) (seq c N)).

(** [var_u = 1.0 / (4 * N * f_u**2) if f_u > 0 else np.inf], with
    [f_u = pdf_sum(u_k, n)]; a NaN threshold gives a NaN density, an
    infinite one the density 0. *)
Definition var_u (pdf_sum : Q -> nat -> Q) (N n : nat) (u_k : float64)
  : float64 :=
  match u_k with
  | Fin u =>
      let f_u := pdf_sum u n in
      match 0 ?= f_u with
      | Lt => Fin (1 / (4 * inject_Z (Z.of_nat N) * f_u ^ 2))
      | _ => PosInf
      end
  | _ => PosInf
  end.

(** One iteration of the body of [while True]. *)
Definition level (src : source) (pdf_sum : Q -> nat -> Q) (n N : nat)
  (a : float64) (st : state) : step :=
  let sums := row_sums (X st) in
  let u_k := median sums in
  let ths := thresholds st ++ [u_k] in
  let vars := vars_median st ++ [var_u pdf_sum N n u_k] in
  if fge u_k (fmul_int (Z.of_nat n) a)
  then Break {| X := X st; thresholds := ths; vars_median := vars;
                accept_rates := accept_rates st;
                iteration := iteration st; cursor := cursor st |}
  else
    let survivors := select (X st) sums u_k in
    match integers src (length survivors) N (cursor st) with
    | None => Raise ValueError
    | Some parent_idx =>
        let samples := gather survivors parent_idx in
        let c1 := (cursor st + N)%nat in
        let '(samples', total_accept) :=
          refined_pass u_k n (proposals_at src N c1) samples in
        match accept_rate total_accept N n with
        | None => Raise ZeroDivisionError
        | Some rate =>
            Next {| X := samples'; thresholds := ths; vars_median := vars;
                    accept_rates := accept_rates st ++ [rate];
                    iteration := S (iteration st);
                    cursor := (c1 + n * N)%nat |}
        end
    end.

Fixpoint level_loop (fuel : nat) (src : source) (pdf_sum : Q -> nat -> Q)
  (n N : nat) (a : float64) (st : state) : outcome :=
  match fuel with
  | O => Running st
  | S fuel' =>
      match level src pdf_sum n N a st with
      | Break st' => Returned (finish st')
      | Raise e => Raised e
      | Next st' => level_loop fuel' src pdf_sum n N a st'
      end
  end.

(** The script from [samples = rng.normal(size=(N, n))] on, for at most
    [fuel] iterations; [Returned] holds [prob_est = 0.5 ** iteration]. *)
Definition run (fuel : nat) (src : source) (pdf_sum : Q -> nat -> Q)
  (n N : nat) (a : float64) : outcome :=
  level_loop fuel src pdf_sum n N a (initial src n N).

End Refined.

(** ** The same code over binary64 numbers

    In this module every number is a double and every arithmetic operation
    is the IEEE operation, rounded to nearest.  The definitions repeat the
    ones above, name for name.  Sizes are naturals here (negative sizes are
    dealt with above).  [row_sum] adds from left to right, the order in
    which NumPy adds a row of fewer than eight numbers, and [f_u**2] is
    taken as the rounded product. *)

Module Double.

Import PrimFloat.

Local Open Scope float_scope.

Set Warnings "-inexact-float".

Definition matrix : Type := list (list float).

Definition row_sum (row : list float) : float := fold_left add row 0.

(** [X.sum(axis=1)] *)
Definition row_sums (X : matrix) : list float := map row_sum X.

Fixpoint set_nth (j : nat) (v : float) (row : list float) : list float :=
  match row, j with
  | [], _ => []
  | _ :: rest, O => v :: rest
  | x :: rest, S j' => x :: set_nth j' v rest
  end.

Fixpoint insert (x : float) (l : list float) : list float :=
  match l with
  | [] => [x]
  | y :: rest => if leb x y then x :: l else y :: insert x rest
  end.

(** The vector in ascending order (no NaN among the statistics). *)
Definition sorted (v : list float) : list float := fold_right insert [] v.

(** [np.median(v)]: for an even length the mean of the two middle values,
    the rounded sum divided by 2. *)
Definition median (v : list float) : float :=
  match v with
  | [] => nan
  | _ =>
      let s := sorted v in
      let index := (length v / 2)%nat in
      if Nat.odd (length v)
      then nth index s nan
      else (nth (index - 1) s nan + nth index s nan) / 2
  end.

(** The interpolation of NumPy's quantile code:
<<
    diff_b_a = subtract(b, a)
    lerp_interpolation = add(a, diff_b_a * t)
    subtract(b, diff_b_a * (1 - t), out=lerp_interpolation, where=t >= 0.5)
>> *)
Definition lerp (a b t : float) : float :=
  if leb 0.5 t then b - (b - a) * (1 - t) else a + (b - a) * t.

(** [np.percentile(v, 25 * k)].  The virtual index [(N - 1) * k / 4] is a
    multiple of 1/4, which a double holds exactly, so its floor and its
    fractional part are computed on naturals.  IndexError ([None]) on an
    empty vector. *)
Definition quartile (k : nat) (v : list float) : option float :=
  match v with
  | [] => None
  | _ =>
      let s := sorted v in
      let N := length v in
      let previous := (k * (N - 1) / 4)%nat in
      let gamma := match (k * (N - 1) mod 4)%nat with
                   | 0%nat => 0
                   | 1%nat => 0.25
                   | 2%nat => 0.5
                   | _ => 0.75
                   end in
      Some (lerp (nth previous s nan)
                 (nth (Nat.min (previous + 1) (N - 1)) s nan) gamma)
  end.

(** A Python int as a double. *)
Fixpoint of_nat (k : nat) : float :=
  match k with
  | O => 0
  | S k' => of_nat k' + 1
  end.

Definition var_median (N : nat) (sums : list float) : option float :=
  match quartile 3 sums, quartile 2 sums with
  | Some q75, Some q50 =>
      Some (if ltb q50 q75
            then let f_u := (of_nat N / 2) / (q75 - q50) in
                 1 / (of_nat (4 * N) * (f_u * f_u))
            else infinity)
  | _, _ => None
  end.

Record source : Type := {
  gauss : nat -> float;
  pick : nat -> nat
}.

Definition randn_vec (src : source) (N c : nat) : list float :=
  map (gauss src) (seq c N).

Definition randn_mat (src : source) (N n c : nat) : matrix :=
  map (fun i => randn_vec src n (c + i * n)%nat) (seq 0 N).

Definition choice (src : source) (m N c : nat) : option (list nat) :=
  if (m =? 0)%nat && negb (N =? 0)%nat
  then None
  else Some (map (fun k => (pick src k mod m)%nat) (seq c N)).

(** [survivors = X[sums >= u_next]] *)
Definition select (X : matrix) (sums : list float) (u : float) : matrix :=
  mask_select (map (fun s => leb u s) sums) X.

Definition gather (survivors : matrix) (indices : list nat) : matrix :=
  map (fun i => nth i survivors []) indices.

Definition resample (src : source) (N c : nat) (survivors : matrix)
  : option matrix :=
  match choice src (length survivors) N c with
  | None => None
  | Some indices => Some (gather survivors indices)
  end.

(** [new_sums = current_sums - X[:, j] + proposals; accept = new_sums >= u],
    with the row sum recomputed from the row. *)
Definition gibbs_row (u : float) (j : nat) (row : list float) (p : float)
  : list float * bool :=
  let current_sum := row_sum row in
  let new_sum := current_sum - nth j row 0 + p in
  let accept := leb u new_sum in
  (if accept then set_nth j p row else row, accept).

Definition gibbs_coord (u : float) (j : nat) (X : matrix)
  (proposals : list float) : matrix * nat :=
  let updated := map (fun rp => gibbs_row u j (fst rp) (snd rp))
                     (combine X proposals) in
  (map fst updated, mask_count (map snd updated)).

Fixpoint gibbs_loop (u : float) (coords : list nat)
  (proposals : nat -> list float) (X : matrix) (total_accepts : nat)
  : matrix * nat :=
  match coords with
  | [] => (X, total_accepts)
  | j :: rest =>
      let '(X', accepted) := gibbs_coord u j X (proposals j) in
      gibbs_loop u rest proposals X' (total_accepts + accepted)
  end.

Definition gibbs_pass (u : float) (n : nat) (proposals : nat -> list float)
  (X : matrix) : matrix * nat :=
  gibbs_loop u (seq 0 n) proposals X 0%nat.

(** The pass of the refined script, with its running cache. *)
Definition refined_row (u : float) (j : nat) (row : list float)
  (current_sum p : float) : (list float * float) * bool :=
  let new_sum := current_sum - nth j row 0 + p in
  let accept := leb u new_sum in
  (if accept then set_nth j p row else row,
   if accept then new_sum else current_sum,
   accept).

Definition refined_coord (u : float) (j : nat) (samples : matrix)
  (current_sums prop : list float) : (matrix * list float) * nat :=
  let updated := map (fun t => refined_row u j (fst (fst t)) (snd (fst t)) (snd t))
                     (combine (combine samples current_sums) prop) in
  (map (fun t => fst (fst t)) updated,
   map (fun t => snd (fst t)) updated,
   mask_count (map snd updated)).

Fixpoint refined_loop (u : float) (coords : list nat)
  (prop : nat -> list float) (samples : matrix) (current_sums : list float)
  (total_accept : nat) : (matrix * list float) * nat :=
  match coords with
  | [] => (samples, current_sums, total_accept)
  | j :: rest =>
      let '(samples', sums', accepted) :=
        refined_coord u j samples current_sums (prop j) in
      refined_loop u rest prop samples' sums' (total_accept + accepted)
  end.

Definition refined_pass (u : float) (n : nat) (prop : nat -> list float)
  (samples : matrix) : matrix * nat :=
  let current_sums := row_sums samples in
  let '(samples', _, total_accept) :=
    refined_loop u (seq 0 n) prop samples current_sums 0%nat in
  (samples', total_accept).

Record state : Type := {
  X : matrix;
  thresholds : list float;
  vars_median : list float;
  accept_rates : list float;
  iteration : nat;
  cursor : nat
}.

Record result : Type := {
  probability : float;
  K : nat;
  res_thresholds : list float;
  res_vars_median : list float;
  res_accept_rates : list float;
  final_samples : matrix
}.

Definition accept_rate (total_accepts N n : nat) : option float :=
  if (n =? 0)%nat then None
  else if (N =? 0)%nat then Some nan
  else Some (of_nat total_accepts / of_nat (N * n)).

Inductive step : Type :=
| Break (s : state)
| Next (s : state)
| Raise (e : error).

Definition proposals_at (src : source) (N c1 : nat) : nat -> list float :=
  fun j => randn_vec src N (c1 + j * N)%nat.

Definition advance (src : source) (n N : nat) (u_next : float)
  (ths vars : list float) (st : state) : step :=
  let survivors := select (X st) (row_sums (X st)) u_next in
  match resample src N (cursor st) survivors with
  | None => Raise ValueError
  | Some X1 =>
      let c1 := (cursor st + N)%nat in
      let proposals := proposals_at src N c1 in
      let '(X2, total_accepts) := gibbs_pass u_next n proposals X1 in
      match accept_rate total_accepts N n with
      | None => Raise ZeroDivisionError
      | Some rate =>
          Next {| X := X2; thresholds := ths; vars_median := vars;
                  accept_rates := accept_rates st ++ [rate];
                  iteration := S (iteration st);
                  cursor := (c1 + n * N)%nat |}
      end
  end.

Definition level (src : source) (n N : nat) (target : float) (st : state)
  : step :=
  let sums := row_sums (X st) in
  let u_next := median sums in
  let ths := thresholds st ++ [u_next] in
  match var_median N sums with
  | None => Raise IndexError
  | Some v =>
      let vars := vars_median st ++ [v] in
      if leb target u_next
      then Break {| X := X st; thresholds := ths; vars_median := vars;
                    accept_rates := accept_rates st;
                    iteration := iteration st; cursor := cursor st |}
      else advance src n N u_next ths vars st
  end.

Inductive outcome : Type :=
| Returned (r : result)
| Raised (e : error)
| Running (s : state).

(** [0.5 ** K]: the product of [K] halves is exact as long as it is a
    double and rounds to 0, as the power does, once it is not. *)
Fixpoint pow_half (K : nat) : float :=
  match K with
  | O => 1
  | S k => pow_half k * 0.5
  end.

Definition finish (st : state) : result :=
  {| probability := pow_half (iteration st);
     K := iteration st;
     res_thresholds := thresholds st;
     res_vars_median := vars_median st;
     res_accept_rates := accept_rates st;
     final_samples := X st |}.

Fixpoint level_loop (fuel : nat) (src : source) (n N : nat)
  (target : float) (st : state) : outcome :=
  match fuel with
  | O => Running st
  | S fuel' =>
      match level src n N target st with
      | Break st' => Returned (finish st')
      | Raise e => Raised e
      | Next st' => level_loop fuel' src n N target st'
      end
  end.

Definition initial (src : source) (n N : nat) : state :=
  {| X := randn_mat src N n 0; thresholds := []; vars_median := [];
     accept_rates := []; iteration := 0; cursor := (N * n)%nat |}.

(** [nested_sampling(n, a, N)] run for at most [fuel] iterations. *)
Definition nested_sampling (fuel : nat) (src : source) (n : nat) (a : float)
  (N : nat) : outcome :=
  level_loop fuel src n N (of_nat n * a) (initial src n N).

(** *** Sample data on which rounding shows *)

(** A row whose candidate statistic passes a threshold that the updated
    row, summed afresh, does not. *)
Definition tight_row : list float := [1.29; 1.45].

Definition tight_threshold : float := 1.5200000000000002.

Definition tight_proposal : float := 0.07.

(** Draws that lead a population of two rows to that row and proposal:
    the initial population is [[0.3000000000000001, 0]; [1.29, 1.45]] and
    every later normal draw is 0.07. *)
Definition tight_source : source :=
  {| gauss := fun k => match k with
                       | 0%nat => 0.3000000000000001
                       | 1%nat => 0
                       | 2%nat => 1.29
                       | 3%nat => 1.45
                       | _ => 0.07
                       end;
     pick := fun _ => 0%nat |}.

(** A row and two proposals on which the cached and the recomputed
    statistic part ways. *)
Definition drift_row : list float := [0.93; 1.03].

Definition drift_threshold : float := -0.25.

Definition drift_proposals : nat -> list float :=
  fun j => match j with
           | 0%nat => [0.59]
           | _ => [-0.84]
           end.

(** Two neighbouring doubles. *)
Definition neighbours : list float :=
  [1.0000000000000002; 1.0000000000000004].

End Double.

(** ** The data prepared by [plot_diagnostics] ([plotting.py]) *)

(** [x - y] on doubles. *)
Definition fsub (x y : float64) : float64 :=
  match x, y with
  | NaN, _ | _, NaN => NaN
  | Fin p, Fin q => Fin (p - q)
  | PosInf, PosInf | NegInf, NegInf => NaN
  | PosInf, _ => PosInf
  | NegInf, _ => NegInf
  | Fin _, PosInf => NegInf
  | Fin _, NegInf => PosInf
  end.

(** [np.diff(l)]: [out[i] = l[i+1] - l[i]]. *)
Fixpoint np_diff (l : list float64) : list float64 :=
  match l with
  | x :: (y :: _) as rest => fsub y x :: np_diff rest
  | _ => []
  end.

(** [levels = np.arange(len(thresholds))] *)
Definition levels (thresholds : list float64) : list nat :=
  seq 0 (length thresholds).

(** [increments = np.diff([0] + thresholds)] *)
Definition increments (thresholds : list float64) : list float64 :=
  np_diff (Fin 0 :: thresholds).

(** The variances whose [log10] is plotted:
    [[... for v in vars_median if np.isfinite(v)]]. *)
Definition plotted_vars (vars_median : list float64) : list float64 :=
  filter is_finite vars_median.

(** ** Sample sources *)

(** Every draw is 0. *)
Definition zero_source : source :=
  {| gauss := fun _ => 0; pick := fun _ => 0%nat |}.

(** Every normal draw is 1. *)
Definition unit_source : source :=
  {| gauss := fun _ => 1; pick := fun _ => 0%nat |}.

(** The k-th normal draw is [k - 3]; the k-th raw index is [k]. *)
Definition ramp_source : source :=
  {| gauss := fun k => inject_Z (Z.of_nat k) - 3; pick := fun k => k |}.


(** A statistic vector with a tie. *)
Definition tied_vector : list Q := [3; 1; 2; 1].

(** A 2 x 2 population and the proposals of a sweep over it. *)
Definition sample_population : matrix := [[1; 2]; [0; 3]].

Definition sample_proposals : nat -> list Q :=
  fun j => [inject_Z (Z.of_nat j) - 1; -5].

(** ** Predicates used in the statements *)

(** Every row has statistic [>= u]. *)
Definition above (u : float64) (X : matrix) : Prop :=
  Forall (fun row => fge (Fin (row_sum row)) u = true) X.

(** Every row has [n] coordinates. *)
Definition width (n : nat) (X : matrix) : Prop :=
  Forall (fun row => length row = n) X.

(** Each recorded threshold is [>=] the one recorded just before it. *)
Definition nondecreasing (ths : list float64) : Prop :=
  forall k, (S k < length ths)%nat ->
            fge (nth (S k) ths NaN) (nth k ths NaN) = true.

(** The cache of the refined pass holds the row sums of the population it
    goes with. *)
Definition cached (X : matrix) (sums : list Q) : Prop :=
  Forall2 (fun row s => s == row_sum row) X sums.

(** The records kept by the loop are in step with its counter. *)
Definition counted (st : state) : Prop :=
  length (accept_rates st) = iteration st
  /\ length (thresholds st) = iteration st
  /\ length (vars_median st) = iteration st.

(** The population has [N] rows, all at or above the last recorded
    threshold, and the recorded thresholds are in order. *)
Definition ordered (N : nat) (st : state) : Prop :=
  length (X st) = N
  /\ nondecreasing (thresholds st)
  /\ (thresholds st <> [] ->
      above (nth (length (thresholds st) - 1) (thresholds st) NaN) (X st)).

(** [completes k st st']: starting in [st], the loop body runs [k] times
    to the end (selection, resampling and rejuvenation all done) and leaves
    the state [st']. *)
Inductive completes (src : source) (n N : nat) (target : float64)
  : nat -> state -> state -> Prop :=
| completes_none (st : state) : completes src n N target 0 st st
| completes_more (k : nat) (st st1 st2 : state) :
    level src n N target st = Next st1 ->
    completes src n N target k st1 st2 ->
    completes src n N target (S k) st st2.

(** The population is an N x n array. *)
Definition shaped (n N : nat) (st : state) : Prop :=
  length (X st) = N /\ width n (X st).

(** A finite number in [0, 1]. *)
Definition unit_rate (x : float64) : Prop :=
  exists r, x = Fin r /\ 0 <= r /\ r <= 1.


(** Equality of doubles as numbers; NaN is only related to itself here. *)
Definition feq (x y : float64) : Prop :=
  match x, y with
  | NaN, NaN | NegInf, NegInf | PosInf, PosInf => True
  | Fin p, Fin q => p == q
  | _, _ => False
  end.

(** The two ranks (from 0) that decide whether the upper quartile of [N]
    values exceeds their median: the lower central rank [floor((N-1)/2)]
    and the rank [ceil(3(N-1)/4)] at or just above the upper quartile. *)
Definition lower_rank (N : nat) : nat := ((N - 1) / 2)%nat.

Definition upper_rank (N : nat) : nat := ((3 * (N - 1) + 3) / 4)%nat.

(** A recorded variance that is [+inf] or a positive finite number. *)
Definition positive_or_inf (x : float64) : Prop :=
  x = PosInf \/ exists v, x = Fin v /\ 0 < v.

(** [Y[i, k]] *)
Definition entry (Y : matrix) (i k : nat) : Q := nth k (nth i Y []) 0.

(** The one-dimensional estimator and [nested_sampling] with [n = 1] are
    in step: same population, counter and acceptance rates, same draws
    consumed, and thresholds that are equal as numbers. *)
Definition in_step (s1 : OneD.state) (s : state) : Prop :=
  OneD.X s1 = X s
  /\ width 1 (X s)
  /\ OneD.iteration s1 = iteration s
  /\ OneD.cursor s1 = cursor s
  /\ OneD.accept_rates s1 = accept_rates s
  /\ Forall2 feq (OneD.thresholds s1) (thresholds s).

(** Two stacks of the merge sort hold the same numbers. *)
Definition stack_eq (st st' : list (option (list Q))) : Prop :=
  Forall2 (fun o o' => match o, o' with
                       | Some l, Some l' => Forall2 Qeq l l'
                       | None, None => True
                       | _, _ => False
                       end) st st'.

(** * Properties *)

(** ** Comparison of doubles *)

Lemma fge_Fin (p q : Q) : fge (Fin p) (Fin q) = true <-> q <= p.
Proof. simpl. apply Qle_bool_iff. Qed.

Lemma fge_morph (p q : Q) (u : float64) :
  p == q -> fge (Fin p) u = fge (Fin q) u.
Proof.
  intros E. destruct u as [| | c |]; simpl; try reflexivity.
  destruct (Qle_bool c p) eqn:Hp, (Qle_bool c q) eqn:Hq; try reflexivity.
  - apply Qle_bool_iff in Hp. rewrite E in Hp. apply Qle_bool_iff in Hp. congruence.
  - apply Qle_bool_iff in Hq. rewrite <- E in Hq. apply Qle_bool_iff in Hq. congruence.
Qed.

(** ** Rows *)

Lemma set_nth_length (j : nat) (v : Q) (row : list Q) :
  length (set_nth j v row) = length row.
Proof.
  revert j. induction row as [| x rest IH]; intros [| j]; simpl; auto.
Qed.

Lemma set_nth_sum (j : nat) (v : Q) (row : list Q) :
  (j < length row)%nat ->
  row_sum (set_nth j v row) == row_sum row - nth j row 0 + v.
Proof.
  revert j. induction row as [| x rest IH]; intros j Hj; simpl in Hj.
  - lia.
  - destruct j as [| j]; simpl.
    + lra.
    + rewrite IH by lia. lra.
Qed.

Lemma set_nth_beyond (j : nat) (v : Q) (row : list Q) :
  (length row <= j)%nat -> set_nth j v row = row.
Proof.
  revert j. induction row as [| x rest IH]; intros j Hj; simpl in *.
  - destruct j; reflexivity.
  - destruct j as [| j]; [lia |]. simpl. f_equal. apply IH. lia.
Qed.

(** ** Masks *)

Lemma mask_select_filter {A : Type} (f : A -> bool) (l : list A) :
  mask_select (map f l) l = filter f l.
Proof.
  induction l as [| x l IH]; simpl; [reflexivity |].
  rewrite IH. reflexivity.
Qed.

Lemma select_filter (X : matrix) (u : float64) :
  select X (row_sums X) u = filter (fun row => fge (Fin (row_sum row)) u) X.
Proof.
  unfold select, row_sums. rewrite map_map. apply mask_select_filter.
Qed.

Lemma filter_length_map {A B : Type} (g : A -> B) (f : B -> bool) (l : list A) :
  length (filter (fun x => f (g x)) l) = length (filter f (map g l)).
Proof.
  induction l as [| x l IH]; simpl; [reflexivity |].
  destruct (f (g x)); simpl; rewrite IH; reflexivity.
Qed.

Lemma filter_length_perm {A : Type} (f : A -> bool) (l l' : list A) :
  Permutation l l' -> length (filter f l) = length (filter f l').
Proof.
  induction 1 as [| x l l' _ IH | x y l | l l' l'' _ IH1 _ IH2]; simpl.
  - reflexivity.
  - destruct (f x); simpl; rewrite IH; reflexivity.
  - destruct (f x), (f y); reflexivity.
  - congruence.
Qed.

Lemma filter_length_all {A : Type} (f : A -> bool) (l : list A) :
  Forall (fun x => f x = true) l -> length (filter f l) = length l.
Proof.
  induction 1 as [| x l Hx _ IH]; simpl; [reflexivity |].
  rewrite Hx. simpl. rewrite IH. reflexivity.
Qed.

Lemma filter_length_tail {A : Type} (f : A -> bool) (x : A) (l : list A) :
  (length (filter f l) <= length (filter f (x :: l)))%nat.
Proof. simpl. destruct (f x); simpl; lia. Qed.

(** ** Order statistics *)

Lemma sorted_perm (v : list Q) : Permutation v (sorted v).
Proof. apply QSort.Permuted_sort. Qed.

Lemma sorted_length (v : list Q) : length (sorted v) = length v.
Proof. symmetry. apply Permutation_length, sorted_perm. Qed.

Lemma sorted_strongly (v : list Q) : StronglySorted Qle (sorted v).
Proof.
  assert (T : Transitive (fun x y : Q => is_true (QOrder.leb x y))).
  { intros x y z Hxy Hyz. unfold is_true, QOrder.leb in *.
    rewrite Qle_bool_iff in *. eapply Qle_trans; eassumption. }
  pose proof (QSort.StronglySorted_sort v T) as H. fold (sorted v) in H.
  induction H as [| x l _ IH Hx]; constructor; [exact IH |].
  eapply Forall_impl; [| exact Hx].
  intros y Hy. apply Qle_bool_iff, Hy.
Qed.

Lemma strongly_sorted_nth (l : list Q) :
  StronglySorted Qle l ->
  forall i j, (i <= j < length l)%nat -> nth i l 0 <= nth j l 0.
Proof.
  induction 1 as [| x l _ IH Hx]; intros i j Hij; simpl in Hij; [lia |].
  destruct i as [| i], j as [| j]; simpl; try lia.
  - apply Qle_refl.
  - rewrite Forall_forall in Hx. apply Hx, nth_In. lia.
  - apply IH. lia.
Qed.

Lemma sorted_nth_le (v : list Q) (i j : nat) :
  (i <= j < length v)%nat -> nth i (sorted v) 0 <= nth j (sorted v) 0.
Proof.
  intros H. apply strongly_sorted_nth; [apply sorted_strongly |].
  rewrite sorted_length. exact H.
Qed.

Lemma sorted_nth_In (v : list Q) (i : nat) :
  (i < length v)%nat -> In (nth i (sorted v) 0) v.
Proof.
  intros H. eapply Permutation_in; [apply Permutation_sym, sorted_perm |].
  apply nth_In. rewrite sorted_length. exact H.
Qed.

(** In a sorted vector, the entries from position [i] on are at least any
    bound that the [i]-th entry meets. *)
Lemma strongly_sorted_count (l : list Q) :
  StronglySorted Qle l ->
  forall i m, (i < length l)%nat -> m <= nth i l 0 ->
    (length l - i <= length (filter (fun s => Qle_bool m s) l))%nat.
Proof.
  induction 1 as [| x l Hl IH Hx]; intros i m Hi Hm; simpl in Hi; [lia |].
  destruct i as [| i].
  - simpl in Hm. rewrite filter_length_all; [simpl; lia |].
    constructor; [apply Qle_bool_iff, Hm |].
    eapply Forall_impl; [| exact Hx].
    intros y Hy. apply Qle_bool_iff. eapply Qle_trans; eassumption.
  - simpl in Hm. etransitivity; [| apply filter_length_tail].
    simpl. apply IH; [lia | exact Hm].
Qed.

Lemma Qhalf (x : Q) : x / 2 == x * (1 # 2).
Proof. field. Qed.

(** The median of a non-empty vector is finite, is at most the order
    statistic of rank [N / 2], and is at least every lower bound of the
    vector. *)
Lemma median_finite (v : list Q) :
  v <> [] ->
  exists m, median v = Fin m
            /\ m <= nth (length v / 2) (sorted v) 0
            /\ (forall c, (forall x, In x v -> c <= x) -> c <= m).
Proof.
  intros Hne. assert (Hlen : (0 < length v)%nat).
  { destruct v; [congruence | simpl; lia]. }
  assert (Hhalf : (length v / 2 < length v)%nat)
    by (apply Nat.div_lt; lia).
  unfold median. destruct v as [| x0 v0] eqn:Ev; [congruence |].
  rewrite <- Ev in *. clear Ev x0 v0.
  destruct (Nat.odd (length v)) eqn:Hodd.
  - exists (nth (length v / 2) (sorted v) 0). split; [reflexivity |].
    split; [apply Qle_refl |].
    intros c Hc. apply Hc, sorted_nth_In, Hhalf.
  - exists ((nth (length v / 2 - 1) (sorted v) 0
             + nth (length v / 2) (sorted v) 0) / 2).
    split; [reflexivity |].
    pose proof (sorted_nth_le v (length v / 2 - 1) (length v / 2)) as Hle.
    split.
    + assert (H : nth (length v / 2 - 1) (sorted v) 0
                  <= nth (length v / 2) (sorted v) 0) by (apply Hle; lia).
      rewrite Qhalf. lra.
    + intros c Hc.
      assert (H1 : c <= nth (length v / 2 - 1) (sorted v) 0)
        by (apply Hc, sorted_nth_In; lia).
      assert (H2 : c <= nth (length v / 2) (sorted v) 0)
        by (apply Hc, sorted_nth_In; lia).
      rewrite Qhalf. lra.
Qed.

(** At least half of the entries of a non-empty vector are at or above its
    median. *)
Lemma median_count (v : list Q) :
  v <> [] ->
  (length v <= 2 * length (filter (fun s => fge (Fin s) (median v)) v))%nat.
Proof.
  intros Hne. destruct (median_finite v Hne) as (m & Em & Hm & _).
  rewrite Em. simpl.
  assert (Hlen : (0 < length v)%nat).
  { destruct v; [congruence | simpl; lia]. }
  rewrite (filter_length_perm _ _ _ (sorted_perm v)).
  pose proof (strongly_sorted_count (sorted v) (sorted_strongly v)
                (length v / 2) m) as Hc.
  rewrite sorted_length in Hc.
  assert (Hhalf : (length v / 2 < length v)%nat) by (apply Nat.div_lt; lia).
  specialize (Hc Hhalf Hm).
  pose proof (Nat.div_mod_eq (length v) 2) as Hd.
  pose proof (Nat.mod_upper_bound (length v) 2) as Hu.
  lia.
Qed.

Lemma survivors_count (X : matrix) :
  X <> [] ->
  (length X
   <= 2 * length (select X (row_sums X) (median (row_sums X))))%nat.
Proof.
  intros Hne. rewrite select_filter.
  rewrite (filter_length_map row_sum
             (fun s => fge (Fin s) (median (row_sums X))) X).
  fold (row_sums X).
  replace (length X) with (length (row_sums X))
    by (unfold row_sums; apply length_map).
  apply median_count. unfold row_sums. destruct X; [congruence | discriminate].
Qed.

(** ** Populations above a threshold *)

Lemma median_above (u : float64) (X : matrix) :
  X <> [] -> above u X -> fge (median (row_sums X)) u = true.
Proof.
  intros Hne Hab.
  assert (Hs : row_sums X <> []) by (destruct X; [congruence | discriminate]).
  destruct (median_finite _ Hs) as (m & Em & _ & Hlb). rewrite Em.
  destruct X as [| r X']; [congruence |].
  pose proof (Forall_inv Hab) as Hr.
  destruct u as [| | c |]; simpl in Hr; try discriminate; simpl; [reflexivity |].
  apply Qle_bool_iff, Hlb. intros x Hx.
  unfold row_sums in Hx. apply in_map_iff in Hx. destruct Hx as (row & <- & Hin).
  unfold above in Hab. rewrite Forall_forall in Hab.
  apply fge_Fin, Hab, Hin.
Qed.

(** ** One coordinate of the Gibbs pass *)

Lemma mask_count_cons (b : bool) (mask : list bool) :
  mask_count (b :: mask) = ((if b then 1 else 0) + mask_count mask)%nat.
Proof. unfold mask_count. simpl. destruct b; reflexivity. Qed.

Lemma gibbs_row_above (u : float64) (j : nat) (row : list Q) (p : Q) :
  fge (Fin (row_sum row)) u = true ->
  fge (Fin (row_sum (fst (gibbs_row u j row p)))) u = true.
Proof.
  intros H. unfold gibbs_row. cbv zeta. cbn [fst].
  destruct (fge (Fin (row_sum row - nth j row 0 + p)) u) eqn:Hacc; [| exact H].
  destruct (Nat.lt_ge_cases j (length row)) as [Hj | Hj].
  - rewrite (fge_morph _ _ u (set_nth_sum j p row Hj)). exact Hacc.
  - rewrite set_nth_beyond by exact Hj. exact H.
Qed.

Lemma gibbs_coord_above (u : float64) (j : nat) (X : matrix)
  (proposals : list Q) :
  above u X -> above u (fst (gibbs_coord u j X proposals)).
Proof.
  unfold above, gibbs_coord. cbv zeta. cbn [fst]. intros H. rewrite map_map.
  revert proposals. induction H as [| row X Hrow _ IH]; intros [| p ps];
    cbn [combine map fst snd]; constructor.
  - apply gibbs_row_above, Hrow.
  - apply IH.
Qed.

Lemma gibbs_coord_length (u : float64) (j : nat) (X : matrix)
  (proposals : list Q) :
  length proposals = length X ->
  length (fst (gibbs_coord u j X proposals)) = length X.
Proof.
  intros H. unfold gibbs_coord. cbv zeta. cbn [fst].
  rewrite !length_map, length_combine. lia.
Qed.

Lemma gibbs_row_width (u : float64) (j : nat) (row : list Q) (p : Q) :
  length (fst (gibbs_row u j row p)) = length row.
Proof.
  unfold gibbs_row. cbv zeta. cbn [fst].
  destruct (fge _ u); [apply set_nth_length | reflexivity].
Qed.

Lemma gibbs_coord_width (u : float64) (j n : nat) (X : matrix)
  (proposals : list Q) :
  width n X -> width n (fst (gibbs_coord u j X proposals)).
Proof.
  unfold width, gibbs_coord. cbv zeta. cbn [fst]. intros H. rewrite map_map.
  revert proposals. induction H as [| row X Hrow _ IH]; intros [| p ps];
    cbn [combine map fst snd]; constructor.
  - rewrite gibbs_row_width. exact Hrow.
  - apply IH.
Qed.

Lemma gibbs_loop_above (u : float64) (coords : list nat)
  (proposals : nat -> list Q) (X : matrix) (total : nat) :
  above u X -> above u (fst (gibbs_loop u coords proposals X total)).
Proof.
  revert X total. induction coords as [| j rest IH]; intros X total H; cbn [gibbs_loop].
  - exact H.
  - destruct (gibbs_coord u j X (proposals j)) as [X' acc] eqn:E.
    apply IH. replace X' with (fst (gibbs_coord u j X (proposals j)))
      by (rewrite E; reflexivity).
    apply gibbs_coord_above, H.
Qed.

Lemma gibbs_loop_length (u : float64) (coords : list nat)
  (proposals : nat -> list Q) (X : matrix) (total : nat) :
  (forall j, In j coords -> length (proposals j) = length X) ->
  length (fst (gibbs_loop u coords proposals X total)) = length X.
Proof.
  revert X total. induction coords as [| j rest IH]; intros X total H; cbn [gibbs_loop].
  - reflexivity.
  - destruct (gibbs_coord u j X (proposals j)) as [X' acc] eqn:E.
    assert (HX' : length X' = length X).
    { replace X' with (fst (gibbs_coord u j X (proposals j)))
        by (rewrite E; reflexivity).
      apply gibbs_coord_length, H. left. reflexivity. }
    rewrite IH; [exact HX' |].
    intros k Hk. rewrite HX'. apply H. right. exact Hk.
Qed.

(** ** The running cache of the refined pass *)

Lemma cached_row_sums (X : matrix) : cached X (row_sums X).
Proof.
  unfold cached, row_sums. induction X as [| row X IH]; simpl; constructor.
  - apply Qeq_refl.
  - exact IH.
Qed.

Lemma refined_row_gibbs (u : float64) (j : nat) (row : list Q) (s p : Q) :
  s == row_sum row -> (j < length row)%nat ->
  fst (fst (refined_row u j row s p)) = fst (gibbs_row u j row p)
  /\ snd (refined_row u j row s p) = snd (gibbs_row u j row p)
  /\ snd (fst (refined_row u j row s p))
     == row_sum (fst (fst (refined_row u j row s p))).
Proof.
  intros Hs Hj. unfold refined_row, gibbs_row. cbv zeta. cbn [fst snd].
  assert (E : s - nth j row 0 + p == row_sum row - nth j row 0 + p)
    by (rewrite Hs; reflexivity).
  rewrite (fge_morph _ _ u E).
  destruct (fge (Fin (row_sum row - nth j row 0 + p)) u); cbn [fst snd].
  - repeat split. rewrite set_nth_sum by exact Hj. exact E.
  - repeat split. exact Hs.
Qed.

Lemma refined_coord_gibbs (u : float64) (j n : nat) (X : matrix)
  (sums prop : list Q) :
  width n X -> (j < n)%nat -> cached X sums ->
  fst (fst (refined_coord u j X sums prop)) = fst (gibbs_coord u j X prop)
  /\ snd (refined_coord u j X sums prop) = snd (gibbs_coord u j X prop)
  /\ cached (fst (fst (refined_coord u j X sums prop)))
            (snd (fst (refined_coord u j X sums prop))).
Proof.
  intros Hw Hj Hc. unfold refined_coord, gibbs_coord, cached.
  cbv zeta. cbn [fst snd]. revert prop Hw.
  induction Hc as [| row s X sums Hs _ IH]; intros prop Hw.
  - cbn [combine map]. repeat split. constructor.
  - destruct prop as [| p ps]; cbn [combine map fst snd];
      [repeat split; constructor |].
    pose proof (Forall_inv Hw) as Hrow. pose proof (Forall_inv_tail Hw) as Hw'.
    destruct (IH ps Hw') as (IH1 & IH2 & IH3).
    destruct (refined_row_gibbs u j row s p Hs) as (R1 & R2 & R3);
      [rewrite Hrow; exact Hj |].
    split; [rewrite R1, IH1; reflexivity |].
    split; [rewrite !mask_count_cons, R2, IH2; reflexivity |].
    constructor; [exact R3 | exact IH3].
Qed.

Lemma refined_loop_gibbs (u : float64) (n : nat) (coords : list nat)
  (prop : nat -> list Q) (X : matrix) (sums : list Q) (total : nat) :
  width n X -> (forall j, In j coords -> (j < n)%nat) -> cached X sums ->
  fst (fst (refined_loop u coords prop X sums total))
    = fst (gibbs_loop u coords prop X total)
  /\ snd (refined_loop u coords prop X sums total)
    = snd (gibbs_loop u coords prop X total)
  /\ cached (fst (fst (refined_loop u coords prop X sums total)))
            (snd (fst (refined_loop u coords prop X sums total))).
Proof.
  revert X sums total.
  induction coords as [| j rest IH]; intros X sums total Hw Hco Hc;
    cbn [gibbs_loop refined_loop].
  - repeat split. exact Hc.
  - assert (Hj : (j < n)%nat) by (apply Hco; left; reflexivity).
    destruct (refined_coord_gibbs u j n X sums (prop j) Hw Hj Hc)
      as (E1 & E2 & E3).
    pose proof (gibbs_coord_width u j n X (prop j) Hw) as Hw'.
    destruct (refined_coord u j X sums (prop j)) as [[X' sums'] acc'].
    destruct (gibbs_coord u j X (prop j)) as [X'' acc''].
    cbn [fst snd] in *. subst X'' acc''.
    apply IH; [exact Hw' | | exact E3].
    intros k Hk. apply Hco. right. exact Hk.
Qed.

(** ** Selection and resampling *)

Lemma choice_some (src : source) (m N c : nat) :
  (0 < m)%nat ->
  exists indices, choice src m N c = Some indices
                  /\ length indices = N
                  /\ Forall (fun i => (i < m)%nat) indices.
Proof.
  intros Hm. unfold choice.
  replace (m =? 0)%nat with false by (symmetry; apply Nat.eqb_neq; lia).
  cbn [andb]. eexists. split; [reflexivity |]. split.
  - rewrite length_map, length_seq. reflexivity.
  - apply Forall_map, Forall_forall. intros k _.
    apply Nat.mod_upper_bound. lia.
Qed.

Lemma resample_some (src : source) (N c : nat) (survivors : matrix) :
  survivors <> [] ->
  exists X', resample src N c survivors = Some X'
             /\ length X' = N
             /\ Forall (fun row => In row survivors) X'.
Proof.
  intros Hne. assert (Hm : (0 < length survivors)%nat).
  { destruct survivors; [congruence | simpl; lia]. }
  destruct (choice_some src _ N c Hm) as (indices & E & Hlen & Hlt).
  unfold resample. rewrite E. eexists. split; [reflexivity |].
  unfold gather. split; [rewrite length_map; exact Hlen |].
  apply Forall_map. eapply Forall_impl; [| exact Hlt].
  intros i Hi. apply nth_In, Hi.
Qed.

Lemma resample_none (src : source) (N c : nat) :
  (1 <= N)%nat -> resample src N c [] = None.
Proof.
  intros HN. unfold resample, choice. cbn [length Nat.eqb andb].
  replace (N =? 0)%nat with false by (symmetry; apply Nat.eqb_neq; lia).
  reflexivity.
Qed.

Lemma select_above (X : matrix) (u : float64) :
  Forall (fun row => In row X /\ fge (Fin (row_sum row)) u = true)
         (select X (row_sums X) u).
Proof.
  rewrite select_filter. apply Forall_forall. intros row Hrow.
  apply filter_In in Hrow. exact Hrow.
Qed.

(** ** Thresholds in order *)

Lemma nondecreasing_snoc (ths : list float64) (u : float64) :
  nondecreasing ths ->
  (ths <> [] -> fge u (nth (length ths - 1) ths NaN) = true) ->
  nondecreasing (ths ++ [u]).
Proof.
  intros Hnd Hu k Hk. rewrite length_app in Hk. cbn [length] in Hk.
  destruct (Nat.lt_ge_cases (S k) (length ths)) as [Hin | Hout].
  - rewrite !app_nth1 by lia. apply Hnd, Hin.
  - assert (Ek : S k = length ths) by lia.
    rewrite (app_nth2 ths [u]) by lia.
    rewrite (app_nth1 ths [u]) by lia.
    replace (S k - length ths)%nat with 0%nat by lia. cbn [nth].
    replace k with (length ths - 1)%nat by lia.
    apply Hu. destruct ths; [simpl in Ek; lia | discriminate].
Qed.

Lemma snoc_last (ths : list float64) (u : float64) :
  nth (length (ths ++ [u]) - 1) (ths ++ [u]) NaN = u.
Proof.
  rewrite length_app. cbn [length].
  rewrite app_nth2 by lia.
  replace (length ths + 1 - 1 - length ths)%nat with 0%nat by lia.
  reflexivity.
Qed.

(** ** Survivors of a median threshold *)

Lemma proposals_at_length (src : source) (N c1 j : nat) :
  length (proposals_at src N c1 j) = N.
Proof. unfold proposals_at, randn_vec. rewrite length_map, length_seq. reflexivity. Qed.

Lemma nonempty_length {A : Type} (l : list A) :
  (1 <= length l)%nat -> l <> [].
Proof. destruct l; simpl; [lia | discriminate]. Qed.

Lemma survivors_nonempty (X : matrix) :
  (1 <= length X)%nat ->
  select X (row_sums X) (median (row_sums X)) <> [].
Proof.
  intros H. pose proof (survivors_count X (nonempty_length X H)) as Hc.
  apply nonempty_length. lia.
Qed.

(** ** One level *)

Section Levels.

Variables (src : source) (n N : nat) (target : float64).

Lemma advance_next (u : float64) (ths vars : list float64)
  (st st' : state) :
  advance src n N u ths vars st = Next st' ->
  (exists X1 rate,
      resample src N (cursor st) (select (X st) (row_sums (X st)) u)
        = Some X1
      /\ X st' = fst (gibbs_pass u n (proposals_at src N (cursor st + N)) X1)
      /\ accept_rate
           (snd (gibbs_pass u n (proposals_at src N (cursor st + N)) X1))
           N n = Some rate
      /\ accept_rates st' = accept_rates st ++ [rate])
  /\ thresholds st' = ths
  /\ vars_median st' = vars
  /\ iteration st' = S (iteration st).
Proof.
  unfold advance. cbv zeta.
  destruct (resample _ _ _ _) as [X1 |] eqn:Hres; [| discriminate].
  destruct (gibbs_pass _ _ _ X1) as [X2 acc] eqn:Hg.
  destruct (accept_rate acc N n) as [rate |] eqn:Hr; [| discriminate].
  intros H. injection H as <-. cbn.
  split; [| repeat split].
  exists X1, rate. rewrite Hg. repeat split. exact Hr.
Qed.

Lemma advance_raise (u : float64) (ths vars : list float64) (st : state)
  (e : error) :
  advance src n N u ths vars st = Raise e ->
  (e = ValueError
   /\ resample src N (cursor st) (select (X st) (row_sums (X st)) u) = None)
  \/ (e = ZeroDivisionError /\ n = 0%nat).
Proof.
  unfold advance. cbv zeta.
  destruct (resample _ _ _ _) as [X1 |];
    [| intros H; injection H as <-; left; split; reflexivity].
  destruct (gibbs_pass _ _ _ X1) as [X2 acc].
  unfold accept_rate. destruct (Nat.eqb_spec n 0) as [Hn | Hn].
  - intros H. injection H as <-. right. split; [reflexivity | exact Hn].
  - destruct (N =? 0)%nat; discriminate.
Qed.

Lemma advance_not_break (u : float64) (ths vars : list float64)
  (st st' : state) :
  advance src n N u ths vars st <> Break st'.
Proof.
  unfold advance. cbv zeta.
  destruct (resample _ _ _ _) as [X1 |]; [| discriminate].
  destruct (gibbs_pass _ _ _ X1) as [X2 acc].
  destruct (accept_rate acc N n); discriminate.
Qed.

Lemma level_break (st st' : state) :
  level src n N target st = Break st' ->
  fge (median (row_sums (X st))) target = true
  /\ X st' = X st
  /\ thresholds st' = thresholds st ++ [median (row_sums (X st))]
  /\ (exists v, var_median N (row_sums (X st)) = Some v
                /\ vars_median st' = vars_median st ++ [v])
  /\ accept_rates st' = accept_rates st
  /\ iteration st' = iteration st.
Proof.
  unfold level. cbv zeta.
  destruct (var_median N (row_sums (X st))) as [v |]; [| discriminate].
  destruct (fge (median (row_sums (X st))) target) eqn:Hstop.
  - intros H. injection H as <-. cbn. repeat split.
    exists v. split; reflexivity.
  - intros H. exfalso. exact (advance_not_break _ _ _ _ _ H).
Qed.

Lemma level_next (st st' : state) :
  level src n N target st = Next st' ->
  let u := median (row_sums (X st)) in
  fge u target = false
  /\ (exists X1 rate,
        resample src N (cursor st) (select (X st) (row_sums (X st)) u)
          = Some X1
        /\ X st' = fst (gibbs_pass u n
                          (proposals_at src N (cursor st + N)) X1)
        /\ accept_rates st' = accept_rates st ++ [rate])
  /\ thresholds st' = thresholds st ++ [u]
  /\ (exists v, var_median N (row_sums (X st)) = Some v
                /\ vars_median st' = vars_median st ++ [v])
  /\ iteration st' = S (iteration st).
Proof.
  unfold level. cbv zeta.
  destruct (var_median N (row_sums (X st))) as [v |]; [| discriminate].
  destruct (fge (median (row_sums (X st))) target) eqn:Hstop; [discriminate |].
  intros H. apply advance_next in H.
  destruct H as ((X1 & rate & Hres & HX & _ & Hacc) & Hths & Hvars & Hit).
  split; [reflexivity |]. split; [exists X1, rate; repeat split; assumption |].
  split; [exact Hths |]. split; [| exact Hit].
  exists v. split; [reflexivity | exact Hvars].
Qed.

Lemma level_raise (st : state) (e : error) :
  level src n N target st = Raise e ->
  X st = []
  \/ resample src N (cursor st)
       (select (X st) (row_sums (X st)) (median (row_sums (X st)))) = None
  \/ n = 0%nat.
Proof.
  unfold level. cbv zeta.
  destruct (var_median N (row_sums (X st))) as [v |] eqn:Hv.
  - destruct (fge (median (row_sums (X st))) target); [discriminate |].
    intros H. apply advance_raise in H.
    destruct H as [(_ & H) | (_ & H)]; right; [left | right]; exact H.
  - intros _. left. unfold var_median, percentile in Hv.
    destruct (X st) as [| row rest]; [reflexivity | discriminate].
Qed.

Lemma ordered_next (st st' : state) :
  (1 <= N)%nat -> ordered N st ->
  level src n N target st = Next st' -> ordered N st'.
Proof.
  intros HN (Hlen & Hnd & Hab) Hstep.
  apply level_next in Hstep. cbv zeta in Hstep.
  destruct Hstep as (_ & (X1 & rate & Hres & HX & _) & Hths & _ & _).
  set (u := median (row_sums (X st))) in *.
  assert (Hne : X st <> []) by (apply nonempty_length; lia).
  assert (Hsurv : select (X st) (row_sums (X st)) u <> [])
    by (apply survivors_nonempty; lia).
  destruct (resample_some src N (cursor st) _ Hsurv) as (X1' & E & HlenX1 & Hin).
  rewrite Hres in E. injection E as <-.
  assert (HabX1 : above u X1).
  { unfold above. rewrite Forall_forall in Hin |- *. intros row Hrow.
    pose proof (select_above (X st) u) as Hsel. rewrite Forall_forall in Hsel.
    apply Hsel, Hin, Hrow. }
  unfold ordered. rewrite HX, Hths. repeat split.
  - unfold gibbs_pass. rewrite gibbs_loop_length; [exact HlenX1 |].
    intros j _. rewrite proposals_at_length. symmetry. exact HlenX1.
  - apply nondecreasing_snoc; [exact Hnd |].
    intros Hths0. apply median_above; [exact Hne | apply Hab, Hths0].
  - intros _. rewrite snoc_last. unfold gibbs_pass.
    apply gibbs_loop_above, HabX1.
Qed.

Lemma ordered_break (st st' : state) :
  (1 <= N)%nat -> ordered N st ->
  level src n N target st = Break st' -> nondecreasing (thresholds st').
Proof.
  intros HN (Hlen & Hnd & Hab) Hstep.
  apply level_break in Hstep. destruct Hstep as (_ & _ & Hths & _).
  rewrite Hths. apply nondecreasing_snoc; [exact Hnd |].
  intros Hths0. apply median_above; [| apply Hab, Hths0].
  apply nonempty_length. lia.
Qed.

Lemma level_never_raises (st : state) (e : error) :
  (1 <= N)%nat -> (1 <= n)%nat -> length (X st) = N ->
  level src n N target st <> Raise e.
Proof.
  intros HN Hn Hlen Hstep. apply level_raise in Hstep.
  destruct Hstep as [Hnil | [Hres | Hn0]]; [rewrite Hnil in Hlen; simpl in Hlen; lia | | lia].
  assert (Hsurv : select (X st) (row_sums (X st)) (median (row_sums (X st)))
                  <> []) by (apply survivors_nonempty; lia).
  destruct (resample_some src N (cursor st) _ Hsurv) as (X1 & E & _).
  congruence.
Qed.

Lemma counted_next (st st' : state) :
  counted st -> level src n N target st = Next st' -> counted st'.
Proof.
  intros (Ha & Ht & Hv) Hstep. apply level_next in Hstep. cbv zeta in Hstep.
  destruct Hstep
    as (_ & (X1 & rate & _ & _ & Hacc) & Hths & (v & _ & Hvars) & Hit).
  unfold counted. rewrite Hacc, Hths, Hvars, Hit, !length_app. cbn [length].
  lia.
Qed.

(** ** The whole loop *)

Lemma loop_ordered (fuel : nat) (st : state) :
  (1 <= N)%nat -> ordered N st ->
  match level_loop fuel src n N target st with
  | Returned r => nondecreasing (res_thresholds r)
  | Running st' => ordered N st'
  | Raised _ => True
  end.
Proof.
  intros HN. revert st. induction fuel as [| fuel IH]; intros st Hord;
    cbn [level_loop]; [exact Hord |].
  destruct (level src n N target st) as [st' | st' | e] eqn:Hstep.
  - cbn. eapply ordered_break; eassumption.
  - apply IH. eapply ordered_next; eassumption.
  - exact I.
Qed.

Lemma loop_counted (fuel : nat) (st : state) :
  counted st ->
  match level_loop fuel src n N target st with
  | Returned r =>
      length (res_accept_rates r) = K r
      /\ length (res_thresholds r) = S (K r)
      /\ length (res_vars_median r) = S (K r)
      /\ probability r = pow_half (K r)
  | Running st' => counted st'
  | Raised _ => True
  end.
Proof.
  revert st. induction fuel as [| fuel IH]; intros st Hc;
    cbn [level_loop]; [exact Hc |].
  destruct (level src n N target st) as [st' | st' | e] eqn:Hstep.
  - apply level_break in Hstep.
    destruct Hstep as (_ & _ & Hths & (v & _ & Hvars) & Hacc & Hit).
    destruct Hc as (Ha & Ht & Hv). cbn.
    rewrite Hths, Hvars, Hacc, Hit, !length_app. cbn [length].
    repeat split; lia.
  - apply IH. eapply counted_next; eassumption.
  - exact I.
Qed.

Lemma loop_progress (fuel : nat) (st : state) :
  (1 <= N)%nat -> (1 <= n)%nat -> ordered N st ->
  (exists r, level_loop fuel src n N target st = Returned r
             /\ (K r < iteration st + fuel)%nat)
  \/ (exists st', level_loop fuel src n N target st = Running st'
                  /\ iteration st' = (iteration st + fuel)%nat).
Proof.
  intros HN Hn. revert st. induction fuel as [| fuel IH]; intros st Hord;
    cbn [level_loop].
  - right. exists st. split; [reflexivity | lia].
  - destruct (level src n N target st) as [st' | st' | e] eqn:Hstep.
    + left. eexists. split; [reflexivity |].
      apply level_break in Hstep. cbn. lia.
    + pose proof (ordered_next _ _ HN Hord Hstep) as Hord'.
      apply level_next in Hstep. cbv zeta in Hstep.
      destruct Hstep as (_ & _ & _ & _ & Hit).
      destruct (IH st' Hord') as [(r & E & HK) | (s & E & Hs)].
      * left. exists r. split; [exact E | lia].
      * right. exists s. split; [exact E | lia].
    + exfalso. eapply level_never_raises; [exact HN | exact Hn | | exact Hstep].
      apply Hord.
Qed.

Lemma loop_returns_after (fuel : nat) (st : state) (r : result) :
  level_loop fuel src n N target st = Returned r ->
  exists k last st',
    completes src n N target k st last
    /\ level src n N target last = Break st'
    /\ r = finish st'
    /\ K r = (iteration st + k)%nat.
Proof.
  revert st. induction fuel as [| fuel IH]; intros st Hret;
    cbn [level_loop] in Hret; [discriminate |].
  destruct (level src n N target st) as [st' | st' | e] eqn:Hstep.
  - injection Hret as <-. exists 0%nat, st, st'. split; [constructor |].
    split; [exact Hstep |]. split; [reflexivity |].
    apply level_break in Hstep. cbn. lia.
  - destruct (IH st' Hret) as (k & last & st'' & Hc & Hb & Hr & HK).
    exists (S k), last, st''. split; [econstructor; eassumption |].
    split; [exact Hb |]. split; [exact Hr |].
    apply level_next in Hstep. cbv zeta in Hstep.
    destruct Hstep as (_ & _ & _ & _ & Hit). lia.
  - discriminate.
Qed.

Lemma loop_stops_at_target (fuel : nat) (st : state) :
  Forall (fun u => fge u target = false) (thresholds st) ->
  match level_loop fuel src n N target st with
  | Returned r =>
      exists ths u, res_thresholds r = ths ++ [u]
                    /\ Forall (fun u' => fge u' target = false) ths
                    /\ fge u target = true
  | Running st' => Forall (fun u => fge u target = false) (thresholds st')
  | Raised _ => True
  end.
Proof.
  revert st. induction fuel as [| fuel IH]; intros st Hb;
    cbn [level_loop]; [exact Hb |].
  destruct (level src n N target st) as [st' | st' | e] eqn:Hstep.
  - apply level_break in Hstep. destruct Hstep as (Hstop & _ & Hths & _).
    cbn. eexists _, _. split; [exact Hths |]. split; assumption.
  - apply IH. apply level_next in Hstep. cbv zeta in Hstep.
    destruct Hstep as (Hgo & _ & Hths & _). rewrite Hths.
    apply Forall_app. split; [exact Hb |]. constructor; [exact Hgo | constructor].
  - exact I.
Qed.

End Levels.

(** ** The initial state *)

Lemma initial_ordered (src : source) (n N : nat) :
  ordered N (initial src n N).
Proof.
  unfold ordered, initial. cbn. repeat split.
  - unfold randn_mat. rewrite length_map, length_seq. reflexivity.
  - intros k Hk. cbn in Hk. lia.
  - intros H. congruence.
Qed.

Lemma initial_counted (src : source) (n N : nat) :
  counted (initial src n N).
Proof. unfold counted, initial. cbn. repeat split. Qed.

Lemma nested_sampling_loop (fuel : nat) (src : source) (n : Z) (a : float64)
  (N : Z) :
  (0 <= N)%Z -> (0 <= n)%Z ->
  nested_sampling fuel src n a N
  = level_loop fuel src (Z.to_nat n) (Z.to_nat N) (fmul_int n a)
      (initial src (Z.to_nat n) (Z.to_nat N)).
Proof.
  intros HN Hn. unfold nested_sampling.
  replace (N <? 0)%Z with false by (symmetry; apply Z.ltb_ge; exact HN).
  replace (n <? 0)%Z with false by (symmetry; apply Z.ltb_ge; exact Hn).
  reflexivity.
Qed.

Lemma half_power (k : nat) :
  (1 # 2) ^ Z.of_nat k == 2 ^ (- Z.of_nat k)
  /\ 0 < (1 # 2) ^ Z.of_nat k /\ (1 # 2) ^ Z.of_nat k <= 1.
Proof.
  split; [| split].
  - rewrite Qpower_opp, <- Qinv_power. reflexivity.
  - apply Qpower_0_lt. reflexivity.
  - induction k as [| k IH]; [discriminate |].
    rewrite Nat2Z.inj_succ, <- Z.add_1_r, Qpower_plus by discriminate.
    assert (P : 0 < (1 # 2) ^ Z.of_nat k) by (apply Qpower_0_lt; reflexivity).
    change ((1 # 2) ^ 1) with (1 # 2). lra.
Qed.

Lemma pow_half_cases (k : nat) :
  ((k <= 1074)%nat ->
   pow_half k == 2 ^ (- Z.of_nat k) /\ 0 < pow_half k /\ pow_half k <= 1)
  /\ ((1075 <= k)%nat -> pow_half k = 0).
Proof.
  unfold pow_half. split; intros H.
  - replace (k <=? 1074)%nat with true by (symmetry; apply Nat.leb_le; exact H).
    apply half_power.
  - replace (k <=? 1074)%nat with false; [reflexivity |].
    symmetry. apply Nat.leb_gt. lia.
Qed.

Lemma zero_level (st : state) :
  X st = [[0]; [0]] ->
  exists st', level zero_source 1 2 (fmul_int 1 (Fin 1)) st = Next st'
              /\ X st' = [[0]; [0]].
Proof.
  intros HX. unfold level, advance. rewrite HX. eexists.
  split; [reflexivity |]. reflexivity.
Qed.

Lemma zero_loop (fuel : nat) (st : state) :
  X st = [[0]; [0]] ->
  exists st',
    level_loop fuel zero_source 1 2 (fmul_int 1 (Fin 1)) st = Running st'.
Proof.
  revert st. induction fuel as [| fuel IH]; intros st HX; cbn [level_loop].
  - exists st. reflexivity.
  - destruct (zero_level st HX) as (st' & E & HX'). rewrite E.
    apply IH, HX'.
Qed.

Lemma level_empty (src : source) (n N : nat) (target : float64) (st : state) :
  X st = [] -> level src n N target st = Raise IndexError.
Proof. intros H. unfold level. rewrite H. reflexivity. Qed.

Lemma initial_empty (src : source) (n : nat) : X (initial src n 0) = [].
Proof. reflexivity. Qed.

(** ** The running cache over binary64 numbers *)

Lemma double_row_cache (u : PrimFloat.float) (j : nat)
  (row : list PrimFloat.float) (s p : PrimFloat.float) :
  PrimFloat.leb u s = true ->
  PrimFloat.leb u (snd (fst (Double.refined_row u j row s p))) = true.
Proof.
  intros Hs. unfold Double.refined_row. cbv zeta. cbn [fst snd].
  set (new_sum := PrimFloat.add _ p).
  destruct (PrimFloat.leb u new_sum) eqn:E; [exact E | exact Hs].
Qed.

Lemma double_coord_cache (u : PrimFloat.float) (j : nat) (Y : Double.matrix)
  (sums prop : list PrimFloat.float) :
  Forall (fun s => PrimFloat.leb u s = true) sums ->
  Forall (fun s => PrimFloat.leb u s = true)
         (snd (fst (Double.refined_coord u j Y sums prop))).
Proof.
  intros H. unfold Double.refined_coord. cbv zeta. cbn [fst snd].
  rewrite map_map. revert Y prop.
  induction H as [| s sums Hs _ IH]; intros Y prop.
  - destruct Y; cbn [combine map]; constructor.
  - destruct Y as [| row Y]; [constructor |].
    destruct prop as [| p prop]; [constructor |].
    cbn [combine map fst snd]. constructor; [| apply IH].
    apply double_row_cache, Hs.
Qed.

Lemma double_loop_cache (u : PrimFloat.float) (coords : list nat)
  (prop : nat -> list PrimFloat.float) (Y : Double.matrix)
  (sums : list PrimFloat.float) (total : nat) :
  Forall (fun s => PrimFloat.leb u s = true) sums ->
  Forall (fun s => PrimFloat.leb u s = true)
         (snd (fst (Double.refined_loop u coords prop Y sums total))).
Proof.
  revert Y sums total. induction coords as [| j rest IH];
    intros Y sums total H; cbn [Double.refined_loop]; [exact H |].
  pose proof (double_coord_cache u j Y sums (prop j) H) as H'.
  destruct (Double.refined_coord u j Y sums (prop j)) as [[Y' sums'] acc].
  apply IH, H'.
Qed.

(** The first coordinate that a sweep visits is decided alike by the pass
    that recomputes the row sums and by the pass that caches them: the
    cache still holds the row sums just computed. *)
Lemma double_first_coord (u : PrimFloat.float) (j : nat) (Y : Double.matrix)
  (prop : list PrimFloat.float) :
  fst (fst (Double.refined_coord u j Y (Double.row_sums Y) prop))
  = fst (Double.gibbs_coord u j Y prop)
  /\ snd (Double.refined_coord u j Y (Double.row_sums Y) prop)
     = snd (Double.gibbs_coord u j Y prop).
Proof.
  unfold Double.refined_coord, Double.gibbs_coord, Double.row_sums.
  cbv zeta. cbn [fst snd]. rewrite !map_map. revert prop.
  induction Y as [| row Y IH]; intros prop; [split; reflexivity |].
  destruct prop as [| p prop]; [split; reflexivity |].
  cbn [map combine fst snd]. destruct (IH prop) as (IH1 & IH2).
  rewrite !mask_count_cons, IH1, IH2.
  unfold Double.refined_row, Double.gibbs_row. cbv zeta. cbn [fst snd].
  split; reflexivity.
Qed.

(** * The claims *)

(** C1 (as stated, refuted): the loop of [nested_sampling] is [while True]
    with no iteration guard.  With N = 2, n = 1, a = 1 and a source whose
    draws are all 0 the call has neither returned nor raised after any
    number of iterations. *)
Lemma level_loop_runs_forever :
  ~ exists fuel,
      match nested_sampling fuel zero_source 1 (Fin 1) 2 with
      | Running _ => False
      | _ => True
      end.
Proof.
  intros [fuel H]. rewrite nested_sampling_loop in H by lia.
  destruct (zero_loop fuel (initial zero_source (Z.to_nat 1) (Z.to_nat 2)))
    as (st' & E); [reflexivity |].
  change (Z.to_nat 1) with 1%nat in *. change (Z.to_nat 2) with 2%nat in *.
  rewrite E in H. exact H.
Qed.

(** C1 (amended): the loop has no iteration guard and stops only when the
    median threshold reaches the target [n * a].  For N >= 1 and n >= 1,
    after any number [fuel] of iterations the call has either returned
    normally, having converged at a level below [fuel] whose threshold is
    the first one [>=] the target, or it is still running, has completed
    exactly [fuel] levels and has recorded only thresholds below the
    target; no error is ever reported. *)
Theorem level_loop_unguarded (fuel : nat) (src : source) (n : Z)
  (a : float64) (N : Z) :
  (1 <= N)%Z -> (1 <= n)%Z ->
  (exists r ths u,
      nested_sampling fuel src n a N = Returned r
      /\ (K r < fuel)%nat
      /\ res_thresholds r = ths ++ [u]
      /\ Forall (fun u' => fge u' (fmul_int n a) = false) ths
      /\ fge u (fmul_int n a) = true)
  \/ (exists st,
        nested_sampling fuel src n a N = Running st
        /\ iteration st = fuel
        /\ Forall (fun u => fge u (fmul_int n a) = false) (thresholds st)).
Proof.
  intros HN Hn. rewrite nested_sampling_loop by lia.
  set (st0 := initial src (Z.to_nat n) (Z.to_nat N)).
  pose proof (loop_stops_at_target src (Z.to_nat n) (Z.to_nat N)
                (fmul_int n a) fuel st0 (Forall_nil _)) as Hstop.
  destruct (loop_progress src (Z.to_nat n) (Z.to_nat N) (fmul_int n a)
              fuel st0) as [(r & E & HK) | (st & E & Hit)];
    try lia; try apply initial_ordered.
  - left. rewrite E in Hstop. destruct Hstop as (ths & u & H1 & H2 & H3).
    exists r, ths, u. repeat split; assumption.
  - right. rewrite E in Hstop. exists st. repeat split; assumption.
Qed.

Lemma level_loop_unguarded_witness :
  (exists r ths u,
      nested_sampling 5 ramp_source 1 (Fin 0) 1 = Returned r
      /\ (K r < 5)%nat
      /\ res_thresholds r = ths ++ [u]
      /\ Forall (fun u' => fge u' (fmul_int 1 (Fin 0)) = false) ths
      /\ fge u (fmul_int 1 (Fin 0)) = true)
  \/ (exists st,
        nested_sampling 5 ramp_source 1 (Fin 0) 1 = Running st
        /\ iteration st = 5%nat
        /\ Forall (fun u => fge u (fmul_int 1 (Fin 0)) = false)
                  (thresholds st)).
Proof.
  apply (level_loop_unguarded 5 ramp_source 1 (Fin 0) 1); lia.
Defined.




(** C3 (as stated, refuted): with N = 1, n = 1, a = 2200 and the k-th
    normal draw equal to [k - 3] the single particle moves up by 2 at every
    level, and the call returns after K = 1102 completed levels.  The
    estimate it returns, [0.5 ** 1102], is the double 0.0: it is not
    2^-1102 and it is not in (0, 1].  In binary64 the product of 1074
    halves is still positive and the product of 1075 halves is 0. *)
Lemma estimate_underflows :
  exists r, nested_sampling 1200 ramp_source 1 (Fin 2200) 1 = Returned r
            /\ K r = 1102%nat
            /\ probability r = 0
            /\ ~ probability r == 2 ^ (- Z.of_nat (K r))
            /\ ~ 0 < probability r
            /\ PrimFloat.ltb (Double.of_nat 0) (Double.pow_half 1074) = true
            /\ Double.pow_half 1075 = Double.of_nat 0.
Proof.
  eexists. split; [vm_compute; reflexivity |].
  split; [reflexivity |]. split; [reflexivity |].
  split; [intros H; vm_compute in H; discriminate |].
  split; [intros H; vm_compute in H; discriminate |].
  split; vm_compute; reflexivity.
Qed.

(** C3 (amended): whenever the call returns, K is the number of completed
    levels: the loop body ran K times to the end from the initial state and
    the next level, which only recorded its threshold, triggered
    convergence; accordingly one acceptance rate was recorded per completed
    level and one threshold more than that; K >= 0; and the probability
    estimate is the double [0.5 ** K]: exactly 2^-K, a number in (0, 1],
    when K <= 1074, and 0 when K >= 1075. *)
Theorem returned_estimate (fuel : nat) (src : source) (n : Z) (a : float64)
  (N : Z) (r : result) :
  nested_sampling fuel src n a N = Returned r ->
  (exists last st',
      completes src (Z.to_nat n) (Z.to_nat N) (fmul_int n a) (K r)
        (initial src (Z.to_nat n) (Z.to_nat N)) last
      /\ level src (Z.to_nat n) (Z.to_nat N) (fmul_int n a) last = Break st'
      /\ r = finish st')
  /\ length (res_accept_rates r) = K r
  /\ length (res_thresholds r) = S (K r)
  /\ (0 <= K r)%nat
  /\ ((K r <= 1074)%nat ->
      probability r == 2 ^ (- Z.of_nat (K r))
      /\ 0 < probability r /\ probability r <= 1)
  /\ ((1075 <= K r)%nat -> probability r = 0).
Proof.
  intros Hret. unfold nested_sampling in Hret.
  destruct ((N <? 0)%Z || (n <? 0)%Z); [discriminate |].
  pose proof (loop_counted src (Z.to_nat n) (Z.to_nat N) (fmul_int n a) fuel
                (initial src (Z.to_nat n) (Z.to_nat N))
                (initial_counted _ _ _)) as Hc.
  rewrite Hret in Hc. destruct Hc as (Ha & Ht & _ & Hp).
  destruct (pow_half_cases (K r)) as (P1 & P2). rewrite Hp.
  destruct (loop_returns_after _ _ _ _ _ _ _ Hret)
    as (k & last & st' & Hc & Hb & Hr & HK).
  cbn [initial iteration] in HK. rewrite Nat.add_0_l in HK. subst k.
  split; [exists last, st'; repeat split; assumption |].
  repeat split; try assumption; try lia; apply P1; assumption.
Qed.

Lemma returned_estimate_witness :
  exists r, nested_sampling 5 ramp_source 1 (Fin 0) 1 = Returned r
            /\ K r = 2%nat
            /\ length (res_accept_rates r) = K r
            /\ length (res_thresholds r) = S (K r)
            /\ probability r == 2 ^ (- Z.of_nat (K r))
            /\ 0 < probability r /\ probability r <= 1.
Proof.
  eexists. split; [vm_compute; reflexivity |]. split; [reflexivity |].
  pose proof (returned_estimate 5 ramp_source 1 (Fin 0) 1 _
                ltac:(vm_compute; reflexivity)) as H.
  destruct H as (_ & H1 & H2 & _ & H4 & _).
  split; [exact H1 |]. split; [exact H2 |]. apply H4. vm_compute. lia.
Defined.

(** C6 (as stated, refuted): in doubles, with N = 2, n = 2, a = 5, the
    initial population [[0.3000000000000001, 0]; [1.29, 1.45]] and every
    later normal draw equal to 0.07, the first level records the threshold
    1.5200000000000002 and keeps copies of the second row; the sweep
    replaces their first coordinate by 0.07, the candidate statistic
    (2.74 - 1.29) + 0.07 being 1.5200000000000002 as computed; the updated
    rows sum to 1.52, and the second level records the threshold 1.52,
    which is below the one recorded before it. *)
Lemma thresholds_decrease_in_doubles :
  exists st u0 u1,
    Double.nested_sampling 2 Double.tight_source 2 (Double.of_nat 5) 2
    = Double.Running st
    /\ Double.thresholds st = [u0; u1]
    /\ u0 = Double.tight_threshold
    /\ PrimFloat.ltb u1 u0 = true.
Proof.
  eexists _, _, _. split; [vm_compute; reflexivity |].
  split; [reflexivity |]. split; vm_compute; reflexivity.
Qed.

(** C6 (amended): in exact arithmetic, in every run, whether it has
    returned or is still looping, each recorded threshold is [>=] the one
    recorded at the level before. *)
Theorem thresholds_nondecreasing (fuel : nat) (src : source) (n : Z)
  (a : float64) (N : Z) :
  match nested_sampling fuel src n a N with
  | Returned r => nondecreasing (res_thresholds r)
  | Running st => nondecreasing (thresholds st)
  | Raised _ => True
  end.
Proof.
  unfold nested_sampling.
  destruct ((N <? 0)%Z || (n <? 0)%Z); [exact I |].
  destruct (Z.to_nat N) as [| N'] eqn:EN.
  - destruct fuel as [| fuel]; cbn [level_loop].
    + intros k Hk. cbn in Hk. lia.
    + rewrite level_empty by apply initial_empty. exact I.
  - pose proof (loop_ordered src (Z.to_nat n) (S N') (fmul_int n a) fuel
                  (initial src (Z.to_nat n) (S N'))) as H.
    destruct (level_loop _ _ _ _ _ _) as [r | e | st].
    + apply H; [lia | apply initial_ordered].
    + exact I.
    + apply H; [lia | apply initial_ordered].
Qed.

(** C4 (as stated, refuted): in doubles, the row [1.29, 1.45] has
    statistic 2.74, above the threshold 1.5200000000000002.  The sweep
    accepts the proposal 0.07 for its first coordinate, because the
    candidate statistic (2.74 - 1.29) + 0.07 is 1.5200000000000002 as
    computed; but the updated row [0.07, 1.45] sums to 1.52, which is below
    the threshold. *)
Lemma sweep_breaks_constraint_in_doubles :
  PrimFloat.leb Double.tight_threshold (Double.row_sum Double.tight_row)
  = true
  /\ snd (Double.gibbs_row Double.tight_threshold 0 Double.tight_row
            Double.tight_proposal) = true
  /\ PrimFloat.ltb
       (Double.row_sum
          (fst (Double.gibbs_row Double.tight_threshold 0 Double.tight_row
                  Double.tight_proposal)))
       Double.tight_threshold = true
  /\ PrimFloat.ltb
       (Double.row_sum
          (nth 0 (fst (Double.gibbs_pass Double.tight_threshold 2
                         (fun _ => [Double.tight_proposal])
                         [Double.tight_row])) []))
       Double.tight_threshold = true.
Proof. repeat split; vm_compute; reflexivity. Qed.

(** C4 (amended): in exact arithmetic, if every row of the population has
    statistic [>= u] before a rejuvenation sweep with threshold [u], then
    so has every row after any single-coordinate update, after the first
    [k] coordinates of the sweep for every [k <= n], and at the end of the
    full sweep, in the pass of [nested_sampling] and in the cached pass of
    the refined script.  In doubles, what the cached pass keeps [>= u] is
    the cached statistic of every row, after any number of coordinates. *)
Theorem sweep_keeps_constraint :
  (forall (u : float64) (n : nat) (proposals : nat -> list Q) (X : matrix),
     above u X -> width n X ->
     (forall j props, above u (fst (gibbs_coord u j X props)))
     /\ (forall k, (k <= n)%nat ->
           above u (fst (gibbs_loop u (seq 0 k) proposals X 0)))
     /\ above u (fst (gibbs_pass u n proposals X))
     /\ (forall k, (k <= n)%nat ->
           above u (fst (fst (refined_loop u (seq 0 k) proposals X
                                (row_sums X) 0))))
     /\ above u (fst (refined_pass u n proposals X)))
  /\ (forall (u : PrimFloat.float) (coords : list nat)
             (prop : nat -> list PrimFloat.float) (Y : Double.matrix)
             (sums : list PrimFloat.float) (total : nat),
        Forall (fun s => PrimFloat.leb u s = true) sums ->
        Forall (fun s => PrimFloat.leb u s = true)
               (snd (fst (Double.refined_loop u coords prop Y sums total)))).
Proof.
  split; [| apply double_loop_cache].
  intros u n proposals X Hab Hw.
  assert (Hloop : forall k,
             above u (fst (gibbs_loop u (seq 0 k) proposals X 0)))
    by (intros k; apply gibbs_loop_above, Hab).
  assert (Href : forall k, (k <= n)%nat ->
             above u (fst (fst (refined_loop u (seq 0 k) proposals X
                                  (row_sums X) 0)))).
  { intros k Hk.
    destruct (refined_loop_gibbs u n (seq 0 k) proposals X (row_sums X) 0 Hw)
      as (E & _); [| apply cached_row_sums | rewrite E; apply Hloop].
    intros j Hj. apply in_seq in Hj. lia. }
  repeat split.
  - intros j props. apply gibbs_coord_above, Hab.
  - intros k _. apply Hloop.
  - apply Hloop.
  - exact Href.
  - unfold refined_pass. specialize (Href n (Nat.le_refl n)).
    destruct (refined_loop u (seq 0 n) proposals X (row_sums X) 0)
      as [[X' sums'] total]. exact Href.
Qed.

Lemma sweep_keeps_constraint_witness :
  above (Fin 1) (fst (gibbs_pass (Fin 1) 2 sample_proposals
                        sample_population))
  /\ above (Fin 1) (fst (refined_pass (Fin 1) 2 sample_proposals
                           sample_population))
  /\ Forall (fun s => PrimFloat.leb Double.tight_threshold s = true)
            (snd (fst (Double.refined_loop Double.tight_threshold (seq 0 2)
                         (fun _ => [Double.tight_proposal])
                         [Double.tight_row]
                         (Double.row_sums [Double.tight_row]) 0))).
Proof.
  assert (Hab : above (Fin 1) sample_population)
    by (repeat constructor).
  assert (Hw : width 2 sample_population) by (repeat constructor).
  pose proof (proj1 sweep_keeps_constraint (Fin 1) 2%nat sample_proposals
                sample_population Hab Hw) as H.
  split; [apply H |]. split; [apply H |].
  apply (proj2 sweep_keeps_constraint). repeat constructor.
Defined.



(** C9: at least half of the entries of a non-empty statistic vector, and
    so at least one, are [>=] its median; hence resampling from the
    survivors of a median threshold never meets an empty survivor set; and
    the second half of a level that did meet one (entered with a threshold
    that no row meets), with N >= 1, would raise ValueError instead of
    going on with an empty population. *)
Theorem median_keeps_half :
  (forall v : list Q, v <> [] ->
     (length v
      <= 2 * mask_count (map (fun s => fge (Fin s) (median v)) v))%nat
     /\ (1 <= mask_count (map (fun s => fge (Fin s) (median v)) v))%nat)
  /\ (forall (src : source) (N c : nat) (X : matrix), X <> [] ->
        (1 <= length (select X (row_sums X) (median (row_sums X))))%nat
        /\ resample src N c (select X (row_sums X) (median (row_sums X)))
           <> None)
  /\ (forall (src : source) (n N : nat) (u : float64)
             (ths vars : list float64) (st : state),
        (1 <= N)%nat ->
        select (X st) (row_sums (X st)) u = [] ->
        advance src n N u ths vars st = Raise ValueError).
Proof.
  split; [| split].
  - intros v Hne. pose proof (median_count v Hne) as Hc.
    assert (Hlen : (1 <= length v)%nat)
      by (destruct v; [congruence | simpl; lia]).
    unfold mask_count.
    rewrite <- (filter_length_map (fun s => fge (Fin s) (median v)) id v).
    unfold id at 1 2. lia.
  - intros src N c X Hne.
    pose proof (survivors_count X Hne) as Hc.
    assert (Hlen : (1 <= length X)%nat)
      by (destruct X; [congruence | simpl; lia]).
    split; [lia |].
    destruct (resample_some src N c
                (select X (row_sums X) (median (row_sums X))))
      as (X' & E & _); [apply nonempty_length; lia | congruence].
  - intros src n N u ths vars st HN Hempty. unfold advance. cbv zeta.
    rewrite Hempty, resample_none by exact HN. reflexivity.
Qed.

Lemma median_keeps_half_witness :
  ((length tied_vector
    <= 2 * mask_count (map (fun s => fge (Fin s) (median tied_vector))
                         tied_vector))%nat
   /\ (1 <= mask_count (map (fun s => fge (Fin s) (median tied_vector))
                          tied_vector))%nat)
  /\ resample ramp_source 2 0
       (select [[1]; [4]] (row_sums [[1]; [4]]) (median (row_sums [[1]; [4]])))
     <> None
  /\ advance ramp_source 1 1 (Fin 5) [Fin 5] [PosInf]
       {| X := [[1]]; thresholds := []; vars_median := []; accept_rates := [];
          iteration := 0; cursor := 0 |} = Raise ValueError.
Proof.
  split; [| split].
  - apply (proj1 median_keeps_half tied_vector). discriminate.
  - apply (proj1 (proj2 median_keeps_half) ramp_source 2%nat 0%nat [[1]; [4]]).
    discriminate.
  - apply (proj2 (proj2 median_keeps_half)); [lia | reflexivity].
Defined.

(** C10 (as stated, refuted): in doubles, on the single row [0.93, 1.03]
    with threshold -0.25 and the proposals 0.59 for the first coordinate
    and -0.84 for the second, both passes accept the first proposal; the
    cache then holds (1.96 - 0.93) + 0.59 = 1.6199999999999997, while the
    updated row sums to 1.62.  For the second coordinate the recomputing
    pass finds the candidate -0.24999999999999989 and accepts, the cached
    pass finds -0.25000000000000033 and rejects: two acceptances against
    one, and different final populations. *)
Lemma passes_disagree_in_doubles :
  snd (Double.gibbs_pass Double.drift_threshold 2 Double.drift_proposals
         [Double.drift_row]) = 2%nat
  /\ snd (Double.refined_pass Double.drift_threshold 2 Double.drift_proposals
            [Double.drift_row]) = 1%nat
  /\ fst (Double.gibbs_pass Double.drift_threshold 2 Double.drift_proposals
            [Double.drift_row])
     <> fst (Double.refined_pass Double.drift_threshold 2
               Double.drift_proposals [Double.drift_row]).
Proof.
  split; [vm_compute; reflexivity |]. split; [vm_compute; reflexivity |].
  intros H.
  assert (E : PrimFloat.ltb
                (nth 1 (nth 0 (fst (Double.gibbs_pass Double.drift_threshold 2
                                      Double.drift_proposals
                                      [Double.drift_row])) [])
                     (Double.of_nat 0))
                (Double.of_nat 0)
              = PrimFloat.ltb
                  (nth 1 (nth 0 (fst (Double.refined_pass
                                        Double.drift_threshold 2
                                        Double.drift_proposals
                                        [Double.drift_row])) [])
                       (Double.of_nat 0))
                  (Double.of_nat 0))
    by (rewrite H; reflexivity).
  vm_compute in E. discriminate.
Qed.

(** C10 (amended): in exact arithmetic, on a population whose rows all have
    [n] coordinates, every accept/reject decision of a sweep uses the
    statistic as left by the earlier coordinates of the same sweep: after
    the first [k] coordinates the running cache holds the row sums of the
    population as updated so far.  Consequently the pass that recomputes
    the row sums at every coordinate and the pass that keeps the running
    cache return the same final population and the same number of
    acceptances, for the same threshold and the same proposals.  In
    doubles the two passes decide alike the first coordinate they visit,
    returning the same rows and the same count for it; from the second
    coordinate on they can part ways. *)
Theorem refined_pass_agrees :
  (forall (u : float64) (n : nat) (prop : nat -> list Q) (X : matrix),
     width n X ->
     (forall k, (k <= n)%nat ->
        cached (fst (fst (refined_loop u (seq 0 k) prop X (row_sums X) 0)))
               (snd (fst (refined_loop u (seq 0 k) prop X (row_sums X) 0))))
     /\ fst (refined_pass u n prop X) = fst (gibbs_pass u n prop X)
     /\ snd (refined_pass u n prop X) = snd (gibbs_pass u n prop X)
     /\ refined_pass u n prop X = gibbs_pass u n prop X)
  /\ (forall (u : PrimFloat.float) (j : nat) (Y : Double.matrix)
             (prop : list PrimFloat.float),
        fst (fst (Double.refined_coord u j Y (Double.row_sums Y) prop))
        = fst (Double.gibbs_coord u j Y prop)
        /\ snd (Double.refined_coord u j Y (Double.row_sums Y) prop)
           = snd (Double.gibbs_coord u j Y prop)).
Proof.
  split; [| apply double_first_coord].
  intros u n prop X Hw.
  assert (Hloop : forall k, (k <= n)%nat ->
            fst (fst (refined_loop u (seq 0 k) prop X (row_sums X) 0))
              = fst (gibbs_loop u (seq 0 k) prop X 0)
            /\ snd (refined_loop u (seq 0 k) prop X (row_sums X) 0)
              = snd (gibbs_loop u (seq 0 k) prop X 0)
            /\ cached
                 (fst (fst (refined_loop u (seq 0 k) prop X (row_sums X) 0)))
                 (snd (fst (refined_loop u (seq 0 k) prop X (row_sums X) 0)))).
  { intros k Hk. apply (refined_loop_gibbs u n); [exact Hw | | apply cached_row_sums].
    intros j Hj. apply in_seq in Hj. lia. }
  split; [intros k Hk; apply (Hloop k Hk) |].
  destruct (Hloop n (Nat.le_refl n)) as (E1 & E2 & _).
  unfold refined_pass, gibbs_pass.
  destruct (refined_loop u (seq 0 n) prop X (row_sums X) 0)
    as [[X' sums'] total].
  destruct (gibbs_loop u (seq 0 n) prop X 0) as [X'' total''].
  cbn [fst snd] in *. subst. repeat split.
Qed.

Lemma refined_pass_agrees_witness :
  refined_pass (Fin 1) 2 sample_proposals sample_population
  = gibbs_pass (Fin 1) 2 sample_proposals sample_population.
Proof.
  apply (proj1 refined_pass_agrees (Fin 1) 2%nat sample_proposals
           sample_population).
  repeat constructor.
Defined.

(** ** The variance of the median *)

Lemma percentile_some (v : list Q) (p q : Q) :
  percentile v p = Some q -> (1 <= length v)%nat.
Proof. destruct v; [discriminate | simpl; lia]. Qed.

Lemma percentile_nonempty (v : list Q) (p : Q) :
  v <> [] -> percentile v p = Some (lerp_quantile (sorted v) (length v) p).
Proof. destruct v; [congruence | reflexivity]. Qed.

Lemma var_median_cases (N : nat) (sums : list Q) (q75 q50 : Q) :
  percentile sums 75 = Some q75 -> percentile sums 50 = Some q50 ->
  (q50 < q75 ->
   var_median N sums
   = Some (Fin (1 / (4 * inject_Z (Z.of_nat N)
                     * density_proxy N q75 q50 ^ 2))))
  /\ (q75 <= q50 -> var_median N sums = Some PosInf).
Proof.
  intros E75 E50. unfold var_median. rewrite E75, E50. split; intros H.
  - destruct (q50 ?= q75) eqn:C; [| reflexivity |].
    + apply Qeq_alt in C. lra.
    + apply Qgt_alt in C. lra.
  - destruct (q50 ?= q75) eqn:C; try reflexivity.
    apply Qlt_alt in C. lra.
Qed.

(** A level entered with a non-empty population and [n >= 1] records the
    variance it computed, whatever its value, and goes on. *)
Lemma level_records_variance (src : source) (n N : nat) (target : float64)
  (st : state) :
  (1 <= N)%nat -> (1 <= n)%nat -> length (X st) = N ->
  exists v st',
    var_median N (row_sums (X st)) = Some v
    /\ (level src n N target st = Break st'
        \/ level src n N target st = Next st')
    /\ vars_median st' = vars_median st ++ [v]
    /\ res_vars_median (finish st') = vars_median st ++ [v].
Proof.
  intros HN Hn Hlen.
  destruct (level src n N target st) as [st' | st' | e] eqn:Hstep.
  - pose proof Hstep as Hb. apply level_break in Hb.
    destruct Hb as (_ & _ & _ & (v & Hv & Hvars) & _).
    exists v, st'. repeat split; try assumption. left. reflexivity.
  - pose proof Hstep as Hn'. apply level_next in Hn'. cbv zeta in Hn'.
    destruct Hn' as (_ & _ & _ & (v & Hv & Hvars) & _).
    exists v, st'. repeat split; try assumption. right. reflexivity.
  - exfalso. exact (level_never_raises src n N target st e HN Hn Hlen Hstep).
Qed.

(** C7 (as stated, refuted): for the vector [0; 4] the quartiles are
    Q50 = 2 and Q75 = 3 and the variance is 1/8, which is not
    (Q75 - Q50)^2 / N = 1/2; in doubles the variance is 1/8 as well. *)
Lemma var_median_not_gap_squared_over_N :
  exists q75 q50 v,
    percentile [0; 4] 75 = Some q75
    /\ percentile [0; 4] 50 = Some q50
    /\ q50 < q75
    /\ var_median 2 [0; 4] = Some (Fin v)
    /\ ~ v == (q75 - q50) ^ 2 / 2
    /\ Double.var_median 2 (map Double.of_nat [0; 4]%nat)
       = Some (PrimFloat.div (Double.of_nat 1) (Double.of_nat 8)).
Proof.
  eexists _, _, _. split; [vm_compute; reflexivity |].
  split; [vm_compute; reflexivity |]. split; [reflexivity |].
  split; [vm_compute; reflexivity |]. split; [discriminate |].
  vm_compute. reflexivity.
Qed.

(** C7 (amended): in [nested_sampling], with N the length of the (non-empty)
    statistic vector, whenever Q75 > Q50 the density proxy is
    f(u) = (N/2)/(Q75 - Q50) and the variance is 1/(4*N*f(u)^2), which in
    exact arithmetic equals (Q75 - Q50)^2 / N^3; whenever Q75 <= Q50 the
    variance is +infinity.  Either value is a diagnostic that is propagated
    unchanged: for n >= 1 the level appends it to [vars_median] as it is
    and goes on, breaking or advancing, and the result returns the record
    as it stands.  The refined script does not use the quartiles: its
    density is [pdf_sum(u, n)], with variance 1/(4*N*f^2) when f > 0 and
    +infinity otherwise. *)
Theorem var_median_formula (sums : list Q) (q75 q50 : Q) :
  percentile sums 75 = Some q75 -> percentile sums 50 = Some q50 ->
  let N := length sums in
  let f_u := (inject_Z (Z.of_nat N) / 2) / (q75 - q50) in
  (q50 < q75 ->
   exists v, var_median N sums = Some (Fin v)
             /\ density_proxy N q75 q50 == f_u
             /\ v == 1 / (4 * inject_Z (Z.of_nat N) * f_u ^ 2)
             /\ v == (q75 - q50) ^ 2 / inject_Z (Z.of_nat N) ^ 3)
  /\ (q75 <= q50 -> var_median N sums = Some PosInf)
  /\ (forall (src : source) (n : nat) (target : float64) (st : state),
        row_sums (X st) = sums -> (1 <= n)%nat ->
        exists v st',
          var_median N sums = Some v
          /\ (level src n N target st = Break st'
              \/ level src n N target st = Next st')
          /\ vars_median st' = vars_median st ++ [v]
          /\ res_vars_median (finish st') = vars_median st ++ [v])
  /\ (forall (pdf_sum : Q -> nat -> Q) (n : nat) (u : Q),
        (0 < pdf_sum u n ->
         Refined.var_u pdf_sum N n (Fin u)
         = Fin (1 / (4 * inject_Z (Z.of_nat N) * pdf_sum u n ^ 2)))
        /\ (pdf_sum u n <= 0 ->
            Refined.var_u pdf_sum N n (Fin u) = PosInf)).
Proof.
  intros E75 E50 N f_u.
  destruct (var_median_cases N sums q75 q50 E75 E50) as (Hlt & Hle).
  pose proof (percentile_some _ _ _ E75) as HN. fold N in HN.
  split; [| split; [exact Hle | split]].
  - intros H. eexists. split; [apply Hlt, H |].
    split; [reflexivity |]. split; [reflexivity |].
    assert (HNq : ~ inject_Z (Z.of_nat N) == 0).
    { intros E. apply (Qeq_alt) in E.
      replace 0 with (inject_Z 0) in E by reflexivity.
      unfold Qcompare in E. simpl in E. rewrite Z.mul_1_r in E.
      apply Z.compare_eq in E. lia. }
    assert (Hd : ~ q75 - q50 == 0) by lra.
    unfold density_proxy. simpl Qpower. field. split; assumption.
  - intros src n target st Hsums Hn.
    assert (Hlen : length (X st) = N).
    { unfold N. rewrite <- Hsums. unfold row_sums. rewrite length_map.
      reflexivity. }
    destruct (level_records_variance src n N target st HN Hn Hlen)
      as (v & st' & Hv & Hstep & Hvars & Hres).
    exists v, st'. rewrite <- Hsums. repeat split; assumption.
  - intros pdf_sum n u. unfold Refined.var_u. split; intros H.
    + destruct (0 ?= pdf_sum u n) eqn:C; [| reflexivity |].
      * apply Qeq_alt in C. lra.
      * apply Qgt_alt in C. lra.
    + destruct (0 ?= pdf_sum u n) eqn:C; try reflexivity.
      apply Qlt_alt in C. lra.
Qed.

Lemma var_median_formula_witness :
  (exists v, var_median 2 [0; 4] = Some (Fin v)
             /\ v == (3 - 2) ^ 2 / inject_Z 2 ^ 3)
  /\ (exists v st',
        var_median 2 [2; 2] = Some v
        /\ (level zero_source 1 2 (Fin 3)
              {| X := [[2]; [2]]; thresholds := []; vars_median := [];
                 accept_rates := []; iteration := 0; cursor := 2 |}
            = Break st'
            \/ level zero_source 1 2 (Fin 3)
                 {| X := [[2]; [2]]; thresholds := []; vars_median := [];
                    accept_rates := []; iteration := 0; cursor := 2 |}
               = Next st')
        /\ vars_median st' = [] ++ [v]
        /\ res_vars_median (finish st') = [] ++ [v]).
Proof.
  split.
  - assert (E75 : percentile [0; 4] 75 = Some (300 # 100))
      by (vm_compute; reflexivity).
    assert (E50 : percentile [0; 4] 50 = Some (200 # 100))
      by (vm_compute; reflexivity).
    destruct (proj1 (var_median_formula [0; 4] _ _ E75 E50) eq_refl)
      as (v & Ev & _ & _ & Hv).
    exists v. split; [exact Ev |]. rewrite Hv. reflexivity.
  - assert (E75 : percentile [2; 2] 75 = Some (200 # 100))
      by (vm_compute; reflexivity).
    assert (E50 : percentile [2; 2] 50 = Some (200 # 100))
      by (vm_compute; reflexivity).
    apply (proj1 (proj2 (proj2 (var_median_formula [2; 2] _ _ E75 E50)))
             zero_source 1%nat (Fin 3)
             {| X := [[2]; [2]]; thresholds := []; vars_median := [];
                accept_rates := []; iteration := 0; cursor := 2 |});
      [reflexivity | lia].
Defined.

(** ** Quartiles in terms of order statistics *)

Lemma Qfloor_unique (z : Z) (x : Q) :
  inject_Z z <= x -> x < inject_Z (z + 1) -> Qfloor x = z.
Proof.
  intros Hlo Hhi.
  assert (H1 : (z <= Qfloor x)%Z).
  { rewrite <- (Qfloor_Z z). apply Qfloor_resp_le, Hlo. }
  assert (H2 : (Qfloor x < z + 1)%Z).
  { rewrite Zlt_Qlt. eapply Qle_lt_trans; [apply Qfloor_le | exact Hhi]. }
  lia.
Qed.

Lemma inject_pred (z : Z) : inject_Z (z - 1) == inject_Z z - 1.
Proof. unfold Zminus. rewrite inject_Z_plus. reflexivity. Qed.

Lemma inject_succ (z : Z) : inject_Z (z + 1) == inject_Z z + 1.
Proof. rewrite inject_Z_plus. reflexivity. Qed.

Lemma inject_odd (m : nat) :
  (1 <= m)%nat ->
  inject_Z (Z.of_nat (2 * m - 1)) == 2 * inject_Z (Z.of_nat m) - 1.
Proof.
  intros Hm. replace (Z.of_nat (2 * m - 1)) with (2 * Z.of_nat m - 1)%Z by lia.
  rewrite inject_pred, inject_Z_mult. reflexivity.
Qed.

Lemma inject_nat_pos (d : nat) : (0 < d)%nat -> 0 < inject_Z (Z.of_nat d).
Proof. intros H. change 0 with (inject_Z 0). rewrite <- Zlt_Qlt. lia. Qed.

(** The virtual index of the median of [2m] values lies half-way between
    ranks [m - 1] and [m]. *)
Lemma median_index (m : nat) :
  (1 <= m)%nat ->
  let vi := (50 / 100) * inject_Z (Z.of_nat (2 * m - 1)) in
  Qfloor vi = (Z.of_nat m - 1)%Z /\ vi - inject_Z (Qfloor vi) == 1 # 2.
Proof.
  intros Hm vi.
  assert (Evi : vi == inject_Z (Z.of_nat m) - (1 # 2)).
  { unfold vi. rewrite (inject_odd m Hm).
    setoid_replace (50 / 100) with (1 # 2) by reflexivity. ring. }
  assert (Efl : Qfloor vi = (Z.of_nat m - 1)%Z).
  { apply Qfloor_unique; rewrite Evi.
    - rewrite inject_pred. lra.
    - replace (Z.of_nat m - 1 + 1)%Z with (Z.of_nat m) by lia. lra. }
  split; [exact Efl |]. rewrite Efl, Evi, inject_pred. lra.
Qed.

Lemma gamma_range (x : Q) :
  0 <= x - inject_Z (Qfloor x) /\ x - inject_Z (Qfloor x) < 1.
Proof.
  pose proof (Qfloor_le x) as H1. pose proof (Qlt_floor x) as H2.
  rewrite inject_succ in H2. split; lra.
Qed.

(** The virtual index [(c/d) * k] of a percentile [p] with [p/100 = c/d]:
    its floor is the quotient of [c * k] by [d] and its fractional part is
    the remainder over [d]. *)
Lemma virtual_index_parts (c d k : nat) (p : Q) :
  (0 < d)%nat ->
  p / 100 == inject_Z (Z.of_nat c) / inject_Z (Z.of_nat d) ->
  let vi := p / 100 * inject_Z (Z.of_nat k) in
  Qfloor vi = Z.of_nat (c * k / d)
  /\ vi - inject_Z (Qfloor vi)
     == inject_Z (Z.of_nat ((c * k) mod d)) / inject_Z (Z.of_nat d).
Proof.
  intros Hd Hp vi.
  pose proof (Nat.div_mod_eq (c * k) d) as Hdiv.
  pose proof (Nat.mod_upper_bound (c * k) d ltac:(lia)) as Hr.
  set (q := (c * k / d)%nat) in *. set (r := ((c * k) mod d)%nat) in *.
  pose proof (inject_nat_pos d Hd) as HD.
  assert (Evi : vi == inject_Z (Z.of_nat q)
                      + inject_Z (Z.of_nat r) / inject_Z (Z.of_nat d)).
  { unfold vi. rewrite Hp.
    assert (E : inject_Z (Z.of_nat c) * inject_Z (Z.of_nat k)
                == inject_Z (Z.of_nat d) * inject_Z (Z.of_nat q)
                   + inject_Z (Z.of_nat r)).
    { rewrite <- !inject_Z_mult, <- inject_Z_plus.
      apply inject_Z_injective. lia. }
    setoid_replace (inject_Z (Z.of_nat c) / inject_Z (Z.of_nat d)
                    * inject_Z (Z.of_nat k))
      with ((inject_Z (Z.of_nat c) * inject_Z (Z.of_nat k))
            / inject_Z (Z.of_nat d)) by (field; lra).
    rewrite E. field. lra. }
  assert (Hfrac : 0 <= inject_Z (Z.of_nat r) / inject_Z (Z.of_nat d)
                  /\ inject_Z (Z.of_nat r) / inject_Z (Z.of_nat d) < 1).
  { split.
    - apply Qle_shift_div_l; [exact HD |]. rewrite Qmult_0_l.
      change 0 with (inject_Z 0). rewrite <- Zle_Qle. lia.
    - apply Qlt_shift_div_r; [exact HD |]. rewrite Qmult_1_l.
      rewrite <- Zlt_Qlt. lia. }
  assert (Efl : Qfloor vi = Z.of_nat q).
  { apply Qfloor_unique; rewrite Evi; [| rewrite inject_succ]; lra. }
  split; [exact Efl |]. rewrite Efl, Evi. ring.
Qed.

Lemma lerp_parts (s : list Q) (N c d : nat) (p : Q) :
  (0 < d)%nat ->
  p / 100 == inject_Z (Z.of_nat c) / inject_Z (Z.of_nat d) ->
  let i := (c * (N - 1) / d)%nat in
  lerp_quantile s N p
  == nth i s 0
     + (nth (Nat.min (i + 1) (N - 1)) s 0 - nth i s 0)
       * (inject_Z (Z.of_nat ((c * (N - 1)) mod d)) / inject_Z (Z.of_nat d)).
Proof.
  intros Hd Hp i. unfold lerp_quantile. cbv zeta.
  destruct (virtual_index_parts c d (N - 1) p Hd Hp) as (Efl & Eg).
  cbv zeta in Efl, Eg. rewrite Eg, Efl, Nat2Z.id. reflexivity.
Qed.

Lemma half_cases (d : nat) :
  (d < 2)%nat ->
  (d = 0%nat /\ inject_Z (Z.of_nat d) / inject_Z (Z.of_nat 2) == 0)
  \/ (d = 1%nat /\ inject_Z (Z.of_nat d) / inject_Z (Z.of_nat 2) == 1 # 2).
Proof.
  intros H. destruct d as [| [| d]]; [left | right | lia];
    (split; reflexivity).
Qed.

Lemma quarter_cases (b : nat) :
  (b < 4)%nat ->
  (b = 0%nat /\ inject_Z (Z.of_nat b) / inject_Z (Z.of_nat 4) == 0)
  \/ (b = 1%nat /\ inject_Z (Z.of_nat b) / inject_Z (Z.of_nat 4) == 1 # 4)
  \/ (b = 2%nat /\ inject_Z (Z.of_nat b) / inject_Z (Z.of_nat 4) == 1 # 2)
  \/ (b = 3%nat /\ inject_Z (Z.of_nat b) / inject_Z (Z.of_nat 4) == 3 # 4).
Proof.
  intros H. destruct b as [| [| [| [| b]]]];
    [left | right; left | right; right; left | right; right; right | lia];
    (split; reflexivity).
Qed.

(** The upper quartile against the median, in terms of the order
    statistics of ranks [lower_rank] and [upper_rank]: Q75 exceeds Q50
    exactly when the second is above the first. *)
Lemma quartile_gap (v : list Q) :
  v <> [] ->
  let N := length v in
  let lo := nth (lower_rank N) (sorted v) 0 in
  let top := nth (upper_rank N) (sorted v) 0 in
  lo <= top
  /\ (lo < top ->
      lerp_quantile (sorted v) N 50 < lerp_quantile (sorted v) N 75)
  /\ (top <= lo ->
      lerp_quantile (sorted v) N 75 <= lerp_quantile (sorted v) N 50).
Proof.
  intros Hne N lo top.
  assert (HN : (1 <= N)%nat)
    by (unfold N; destruct v; [congruence | simpl; lia]).
  assert (Hsort : forall i j, (i <= j <= N - 1)%nat ->
                    nth i (sorted v) 0 <= nth j (sorted v) 0)
    by (intros i j Hij; apply sorted_nth_le; fold N; lia).
  pose proof (lerp_parts (sorted v) N 1 2 50 ltac:(lia) ltac:(reflexivity))
    as E50.
  pose proof (lerp_parts (sorted v) N 3 4 75 ltac:(lia) ltac:(reflexivity))
    as E75.
  cbv zeta in E50, E75. rewrite Nat.mul_1_l in E50.
  unfold lo, top, lower_rank, upper_rank. clear lo top.
  pose proof (Nat.div_mod_eq (N - 1) 2) as D2.
  pose proof (Nat.mod_upper_bound (N - 1) 2 ltac:(lia)) as U2.
  pose proof (Nat.div_mod_eq (3 * (N - 1)) 4) as D4.
  pose proof (Nat.mod_upper_bound (3 * (N - 1)) 4 ltac:(lia)) as U4.
  pose proof (Nat.div_mod_eq (3 * (N - 1) + 3) 4) as DU.
  pose proof (Nat.mod_upper_bound (3 * (N - 1) + 3) 4 ltac:(lia)) as UU.
  set (k := (N - 1)%nat) in *.
  set (c := (k / 2)%nat) in *. set (d := (k mod 2)%nat) in *.
  set (a := (3 * k / 4)%nat) in *. set (b := ((3 * k) mod 4)%nat) in *.
  set (U := ((3 * k + 3) / 4)%nat) in *.
  set (w := ((3 * k + 3) mod 4)%nat) in *.
  clearbody c d a b U w. set (s := sorted v) in *. clearbody s.
  destruct (half_cases d U2) as [(Hd & G50) | (Hd & G50)];
    rewrite G50 in E50; clear G50;
    destruct (quarter_cases b U4)
      as [(Hb & G75) | [(Hb & G75) | [(Hb & G75) | (Hb & G75)]]];
    rewrite G75 in E75; clear G75; try lia.
  - (* k = 2c and 3k = 4a: both virtual indices are ranks *)
    replace U with a by lia.
    assert (H1 : nth c s 0 <= nth a s 0) by (apply Hsort; lia).
    rewrite E50, E75. repeat split; intros; lra.
  - (* k = 2c and 3k = 4a + 2 *)
    replace U with (a + 1)%nat by lia.
    replace (Nat.min (a + 1) k) with (a + 1)%nat in E75 by lia.
    assert (H1 : nth c s 0 <= nth a s 0) by (apply Hsort; lia).
    assert (H2 : nth a s 0 <= nth (a + 1) s 0) by (apply Hsort; lia).
    rewrite E50, E75. repeat split; intros; lra.
  - (* k = 2c + 1 and 3k = 4a + 1 *)
    replace U with (a + 1)%nat by lia.
    replace (Nat.min (a + 1) k) with (a + 1)%nat in E75 by lia.
    replace (Nat.min (c + 1) k) with (c + 1)%nat in E50 by lia.
    assert (H1 : nth c s 0 <= nth (c + 1) s 0) by (apply Hsort; lia).
    assert (H2 : nth (c + 1) s 0 <= nth a s 0) by (apply Hsort; lia).
    assert (H3 : nth a s 0 <= nth (a + 1) s 0) by (apply Hsort; lia).
    rewrite E50, E75. repeat split; intros; lra.
  - (* k = 2c + 1 and 3k = 4a + 3 *)
    replace U with (a + 1)%nat by lia.
    replace (Nat.min (a + 1) k) with (a + 1)%nat in E75 by lia.
    replace (Nat.min (c + 1) k) with (c + 1)%nat in E50 by lia.
    assert (H1 : nth c s 0 <= nth (c + 1) s 0) by (apply Hsort; lia).
    assert (H3 : nth a s 0 <= nth (a + 1) s 0) by (apply Hsort; lia).
    destruct (Nat.eq_dec c 0) as [Hc | Hc].
    + assert (Ha : a = c) by lia. subst a.
      rewrite E50, E75. repeat split; intros; lra.
    + assert (H2 : nth (c + 1) s 0 <= nth a s 0) by (apply Hsort; lia).
      rewrite E50, E75. repeat split; intros; lra.
Qed.

(** The upper central rank lies between the two deciding ranks. *)
Lemma central_ranks (N : nat) :
  (1 <= N)%nat ->
  (lower_rank N <= N / 2 <= upper_rank N)%nat /\ (upper_rank N <= N - 1)%nat.
Proof.
  intros HN. unfold lower_rank, upper_rank.
  pose proof (Nat.div_mod_eq (N - 1) 2) as D1.
  pose proof (Nat.mod_upper_bound (N - 1) 2 ltac:(lia)) as U1.
  pose proof (Nat.div_mod_eq N 2) as D2.
  pose proof (Nat.mod_upper_bound N 2 ltac:(lia)) as U2.
  pose proof (Nat.div_mod_eq (3 * (N - 1) + 3) 4) as D3.
  pose proof (Nat.mod_upper_bound (3 * (N - 1) + 3) 4 ltac:(lia)) as U3.
  lia.
Qed.

(** C8 (as stated, refuted): in [0; 1; 1; 2] the two central order
    statistics are equal, yet the variance of the median is finite, because
    the upper quartile 1.25 is above the median 1; in doubles the variance
    is 1/1024 as well.  And in doubles, for the two neighbouring doubles
    1.0000000000000002 and 1.0000000000000004, which do not tie, both
    quartiles round to the larger one and the variance is +infinity. *)
Lemma central_tie_with_finite_variance :
  nth 1 (sorted [0; 1; 1; 2]) 0 == nth 2 (sorted [0; 1; 1; 2]) 0
  /\ (exists v, var_median 4 [0; 1; 1; 2] = Some (Fin v))
  /\ var_median 4 [0; 1; 1; 2] <> Some PosInf
  /\ Double.var_median 4 (map Double.of_nat [0; 1; 1; 2]%nat)
     = Some (PrimFloat.div (Double.of_nat 1) (Double.of_nat 1024))
  /\ PrimFloat.ltb (nth 0 Double.neighbours (Double.of_nat 0))
                   (nth 1 Double.neighbours (Double.of_nat 0)) = true
  /\ Double.var_median 2 Double.neighbours = Some PrimFloat.infinity.
Proof.
  split; [reflexivity |]. split; [eexists; vm_compute; reflexivity |].
  split; [vm_compute; discriminate |].
  repeat split; vm_compute; reflexivity.
Qed.

(** C8 (amended): for every non-empty statistic vector, in exact
    arithmetic, the variance of the median is +infinity exactly when
    Q75 <= Q50, that is, exactly when the order statistics of ranks
    floor((N-1)/2) and ceil(3(N-1)/4) (counted from 0) are equal, and it is
    finite exactly when the second is above the first; this covers odd and
    even lengths.  In particular it is finite whenever the two central
    order statistics (ranks floor((N-1)/2) and floor(N/2)) differ, and an
    infinite variance requires them to be equal, but does not follow from
    their being equal. *)
Theorem var_median_finiteness (sums : list Q) :
  sums <> [] ->
  let N := length sums in
  let lo := nth (lower_rank N) (sorted sums) 0 in
  let top := nth (upper_rank N) (sorted sums) 0 in
  (exists q75 q50,
      percentile sums 75 = Some q75 /\ percentile sums 50 = Some q50
      /\ (var_median N sums = Some PosInf <-> q75 <= q50)
      /\ (q75 <= q50 <-> lo == top))
  /\ (var_median N sums = Some PosInf <-> lo == top)
  /\ ((exists v, var_median N sums = Some (Fin v)) <-> lo < top)
  /\ (nth ((N - 1) / 2) (sorted sums) 0 < nth (N / 2) (sorted sums) 0 ->
      exists v, var_median N sums = Some (Fin v))
  /\ (var_median N sums = Some PosInf ->
      nth ((N - 1) / 2) (sorted sums) 0 == nth (N / 2) (sorted sums) 0).
Proof.
  intros Hne N lo top.
  assert (HN : (1 <= N)%nat)
    by (unfold N; destruct sums; [congruence | simpl; lia]).
  destruct (quartile_gap sums Hne) as (Hle & Hgap & Htie).
  fold N lo top in Hle, Hgap, Htie.
  pose proof (percentile_nonempty sums 75 Hne) as E75.
  pose proof (percentile_nonempty sums 50 Hne) as E50.
  fold N in E75, E50.
  destruct (var_median_cases N sums _ _ E75 E50) as (Hfin & Hinf).
  set (q75 := lerp_quantile (sorted sums) N 75) in *.
  set (q50 := lerp_quantile (sorted sums) N 50) in *.
  assert (Hq : q75 <= q50 <-> lo == top).
  { split; intros H.
    - destruct (Qlt_le_dec lo top) as [Hlt | Hge];
        [apply Hgap in Hlt; lra | lra].
    - apply Htie. lra. }
  assert (Hv : var_median N sums = Some PosInf <-> q75 <= q50).
  { split; intros H; [| apply Hinf, H].
    destruct (Qlt_le_dec q50 q75) as [Hlt | Hge]; [| exact Hge].
    rewrite (Hfin Hlt) in H. discriminate. }
  assert (Hf : (exists v, var_median N sums = Some (Fin v)) <-> lo < top).
  { split.
    - intros (v & Ev). destruct (Qlt_le_dec lo top) as [Hlt | Hge];
        [exact Hlt |].
      rewrite (Hinf (Htie Hge)) in Ev. discriminate.
    - intros H. eexists. apply Hfin, Hgap, H. }
  destruct (central_ranks N HN) as ((R1 & R2) & R3).
  assert (Hmid : lo <= nth (N / 2) (sorted sums) 0
                 /\ nth (N / 2) (sorted sums) 0 <= top).
  { unfold lo, top. split; apply sorted_nth_le; fold N; lia. }
  split; [exists q75, q50; repeat split; tauto |].
  split; [rewrite Hv; exact Hq |]. split; [exact Hf |]. split.
  - intros H. apply Hf. change ((N - 1) / 2)%nat with (lower_rank N) in H.
    fold lo in H. lra.
  - intros H. apply Hv, Hq in H.
    change ((N - 1) / 2)%nat with (lower_rank N). fold lo. lra.
Qed.

Lemma var_median_finiteness_witness :
  (exists v, var_median 4 [0; 1; 3; 7] = Some (Fin v))
  /\ var_median 4 [2; 2; 2; 2] = Some PosInf
  /\ var_median 3 [2; 1; 2] = Some PosInf
  /\ (exists v, var_median 3 [3; 1; 2] = Some (Fin v)).
Proof.
  split; [| split; [| split]].
  - apply (proj1 (proj2 (proj2 (proj2
             (var_median_finiteness [0; 1; 3; 7] ltac:(discriminate)))))).
    reflexivity.
  - apply (proj1 (proj2 (var_median_finiteness [2; 2; 2; 2]
                           ltac:(discriminate)))).
    reflexivity.
  - apply (proj1 (proj2 (var_median_finiteness [2; 1; 2]
                           ltac:(discriminate)))).
    reflexivity.
  - apply (proj1 (proj2 (proj2 (var_median_finiteness [3; 1; 2]
                                  ltac:(discriminate))))).
    reflexivity.
Defined.

(** * Further properties of the code *)

(** ** Invariants of the level loop *)

Section Invariants.

Variables (src : source) (n N : nat) (target : float64).

(** A property kept by every completed level holds of every state the loop
    reaches, and of the state in which it breaks. *)
Lemma loop_invariant (P : state -> Prop) :
  (forall st st', P st -> level src n N target st = Next st' -> P st') ->
  forall fuel st, P st ->
    match level_loop fuel src n N target st with
    | Returned r =>
        exists last st', P last
                         /\ level src n N target last = Break st'
                         /\ r = finish st'
    | Running st' => P st'
    | Raised _ => True
    end.
Proof.
  intros Hstep. induction fuel as [| fuel IH]; intros st HP;
    cbn [level_loop]; [exact HP |].
  destruct (level src n N target st) as [st' | st' | e] eqn:E.
  - exists st, st'. repeat split; assumption.
  - apply IH. eapply Hstep; eassumption.
  - exact I.
Qed.

Lemma resample_inv (c : nat) (survivors X1 : matrix) :
  resample src N c survivors = Some X1 ->
  length X1 = N /\ Forall (fun row => In row survivors) X1.
Proof.
  unfold resample, choice.
  destruct (Nat.eqb_spec (length survivors) 0) as [Hm | Hm]; cbn [andb].
  - destruct (Nat.eqb_spec N 0) as [HN | HN]; cbn [negb]; [| discriminate].
    intros H. injection H as <-. subst N. split; [reflexivity | constructor].
  - intros H. injection H as <-. unfold gather. split.
    + rewrite !length_map, length_seq. reflexivity.
    + apply Forall_map, Forall_map, Forall_forall. intros k _.
      apply nth_In, Nat.mod_upper_bound, Hm.
Qed.

Lemma select_incl (Y : matrix) (u : float64) (row : list Q) :
  In row (select Y (row_sums Y) u) -> In row Y.
Proof. rewrite select_filter. intros H. apply filter_In in H. apply H. Qed.

Lemma gibbs_loop_width (u : float64) (k : nat) (coords : list nat)
  (proposals : nat -> list Q) (Y : matrix) (total : nat) :
  width k Y -> width k (fst (gibbs_loop u coords proposals Y total)).
Proof.
  revert Y total. induction coords as [| j rest IH]; intros Y total H;
    cbn [gibbs_loop]; [exact H |].
  pose proof (gibbs_coord_width u j k Y (proposals j) H) as H'.
  destruct (gibbs_coord u j Y (proposals j)) as [Y' acc]. apply IH, H'.
Qed.

Lemma shaped_next (st st' : state) :
  shaped n N st -> level src n N target st = Next st' -> shaped n N st'.
Proof.
  intros (Hlen & Hw) Hstep. apply level_next in Hstep. cbv zeta in Hstep.
  destruct Hstep as (_ & (X1 & rate & Hres & HX & _) & _).
  apply resample_inv in Hres. destruct Hres as (HlenX1 & Hin).
  assert (HwX1 : width n X1).
  { unfold width in *. rewrite Forall_forall in Hin, Hw |- *.
    intros row Hrow. apply Hw. eapply select_incl, Hin, Hrow. }
  unfold shaped. rewrite HX. unfold gibbs_pass. split.
  - rewrite gibbs_loop_length; [exact HlenX1 |].
    intros j _. rewrite proposals_at_length. symmetry. exact HlenX1.
  - apply gibbs_loop_width, HwX1.
Qed.

End Invariants.

Lemma initial_shaped (src : source) (n N : nat) :
  shaped n N (initial src n N).
Proof.
  unfold shaped, initial, randn_mat, width. cbn [X]. split.
  - rewrite length_map, length_seq. reflexivity.
  - apply Forall_map, Forall_forall. intros i _.
    unfold randn_vec. rewrite length_map, length_seq. reflexivity.
Qed.

(** X1: whenever the call returns, and at every point while it is still
    looping, the population is an N x n array. *)
Theorem population_shape (fuel : nat) (src : source) (n : Z) (a : float64)
  (N : Z) :
  match nested_sampling fuel src n a N with
  | Returned r =>
      length (final_samples r) = Z.to_nat N
      /\ width (Z.to_nat n) (final_samples r)
  | Running st =>
      length (X st) = Z.to_nat N /\ width (Z.to_nat n) (X st)
  | Raised _ => True
  end.
Proof.
  unfold nested_sampling. destruct ((N <? 0)%Z || (n <? 0)%Z); [exact I |].
  pose proof (loop_invariant src (Z.to_nat n) (Z.to_nat N) (fmul_int n a)
                (shaped (Z.to_nat n) (Z.to_nat N))
                (shaped_next src _ _ _) fuel _
                (initial_shaped src (Z.to_nat n) (Z.to_nat N))) as H.
  destruct (level_loop _ _ _ _ _ _) as [r | e | st]; [| exact I | exact H].
  destruct H as (last & st' & Hsh & Hb & ->).
  apply level_break in Hb. destruct Hb as (_ & HX & _).
  cbn [finish final_samples]. rewrite HX. exact Hsh.
Qed.

(** ** The draws a run reads *)











(** ** Acceptance counts and rates *)

Lemma mask_count_le (mask : list bool) :
  (mask_count mask <= length mask)%nat.
Proof.
  induction mask as [| b mask IH]; [reflexivity |].
  rewrite mask_count_cons. cbn [length]. destruct b; lia.
Qed.

Lemma gibbs_coord_bound (u : float64) (j : nat) (Y : matrix)
  (proposals : list Q) :
  (length (fst (gibbs_coord u j Y proposals)) <= length Y)%nat
  /\ (snd (gibbs_coord u j Y proposals) <= length Y)%nat.
Proof.
  unfold gibbs_coord. cbv zeta. cbn [fst snd]. split.
  - rewrite !length_map, length_combine. lia.
  - etransitivity; [apply mask_count_le |].
    rewrite !length_map, length_combine. lia.
Qed.

Lemma gibbs_loop_bound (u : float64) (coords : list nat)
  (proposals : nat -> list Q) (Y : matrix) (total : nat) :
  (snd (gibbs_loop u coords proposals Y total)
   <= total + length coords * length Y)%nat.
Proof.
  revert Y total. induction coords as [| j rest IH]; intros Y total;
    cbn [gibbs_loop length]; [cbn [snd]; lia |].
  destruct (gibbs_coord_bound u j Y (proposals j)) as (H1 & H2).
  destruct (gibbs_coord u j Y (proposals j)) as [Y' acc]. cbn [fst snd] in *.
  etransitivity; [apply IH |]. nia.
Qed.

Lemma accept_rate_unit (total N n : nat) (rate : float64) :
  (1 <= N)%nat -> (1 <= n)%nat -> (total <= N * n)%nat ->
  accept_rate total N n = Some rate -> unit_rate rate.
Proof.
  intros HN Hn Hle. unfold accept_rate.
  replace (n =? 0)%nat with false by (symmetry; apply Nat.eqb_neq; lia).
  replace (N =? 0)%nat with false by (symmetry; apply Nat.eqb_neq; lia).
  intros H. injection H as <-. eexists. split; [reflexivity |].
  assert (Hpos : 0 < inject_Z (Z.of_nat (N * n))).
  { change 0 with (inject_Z 0). rewrite <- Zlt_Qlt. nia. }
  split.
  - apply Qle_shift_div_l; [exact Hpos |]. rewrite Qmult_0_l.
    change 0 with (inject_Z 0). rewrite <- Zle_Qle. lia.
  - apply Qle_shift_div_r; [exact Hpos |]. rewrite Qmult_1_l.
    rewrite <- Zle_Qle. lia.
Qed.

Lemma level_next_rate (src : source) (n N : nat) (target : float64)
  (st st' : state) :
  level src n N target st = Next st' ->
  exists X1 rate,
    resample src N (cursor st)
      (select (X st) (row_sums (X st)) (median (row_sums (X st)))) = Some X1
    /\ accept_rate
         (snd (gibbs_pass (median (row_sums (X st))) n
                 (proposals_at src N (cursor st + N)) X1)) N n = Some rate
    /\ accept_rates st' = accept_rates st ++ [rate].
Proof.
  unfold level. cbv zeta.
  destruct (var_median N (row_sums (X st))) as [v |]; [| discriminate].
  destruct (fge (median (row_sums (X st))) target); [discriminate |].
  intros H. apply advance_next in H.
  destruct H as ((X1 & rate & Hres & _ & Hrate & Hacc) & _).
  exists X1, rate. repeat split; assumption.
Qed.

Lemma rates_next (src : source) (n N : nat) (target : float64)
  (st st' : state) :
  (1 <= N)%nat -> (1 <= n)%nat ->
  Forall unit_rate (accept_rates st) ->
  level src n N target st = Next st' ->
  Forall unit_rate (accept_rates st').
Proof.
  intros HN Hn Hall Hstep. apply level_next_rate in Hstep.
  destruct Hstep as (X1 & rate & Hres & Hrate & ->).
  apply Forall_app. split; [exact Hall |]. constructor; [| constructor].
  apply resample_inv in Hres. destruct Hres as (HlenX1 & _).
  eapply accept_rate_unit; [exact HN | exact Hn | | exact Hrate].
  unfold gibbs_pass.
  etransitivity; [apply gibbs_loop_bound |].
  rewrite length_seq, HlenX1. lia.
Qed.

(** X3: one sweep over [n] coordinates of a population accepts at most
    [n] proposals per row, for the pass that recomputes the sums and, on a
    population of width [n], for the pass with the running cache. *)
Theorem sweep_accepts_at_most (u : float64) (n : nat)
  (proposals : nat -> list Q) (Y : matrix) :
  width n Y ->
  (snd (gibbs_pass u n proposals Y) <= n * length Y)%nat
  /\ (snd (refined_pass u n proposals Y) <= n * length Y)%nat.
Proof.
  intros Hw.
  assert (H : (snd (gibbs_pass u n proposals Y) <= n * length Y)%nat).
  { unfold gibbs_pass. etransitivity; [apply gibbs_loop_bound |].
    rewrite length_seq. lia. }
  split; [exact H |].
  destruct (refined_loop_gibbs u n (seq 0 n) proposals Y (row_sums Y) 0 Hw)
    as (_ & E & _); [| apply cached_row_sums |].
  - intros j Hj. apply in_seq in Hj. lia.
  - unfold refined_pass.
    destruct (refined_loop u (seq 0 n) proposals Y (row_sums Y) 0)
      as [[Y' sums'] total]. cbn [snd] in *. rewrite E. exact H.
Qed.

Lemma sweep_accepts_at_most_witness :
  (snd (gibbs_pass (Fin 1) 2 sample_proposals sample_population)
   <= 2 * length sample_population)%nat
  /\ (snd (refined_pass (Fin 1) 2 sample_proposals sample_population)
      <= 2 * length sample_population)%nat.
Proof.
  apply (sweep_accepts_at_most (Fin 1) 2 sample_proposals sample_population).
  repeat constructor.
Defined.

(** X4: for N >= 1 and n >= 1 every acceptance rate recorded by the
    estimator is a finite number between 0 and 1. *)
Theorem accept_rates_in_unit_interval (fuel : nat) (src : source) (n : Z)
  (a : float64) (N : Z) :
  (1 <= N)%Z -> (1 <= n)%Z ->
  match nested_sampling fuel src n a N with
  | Returned r => Forall unit_rate (res_accept_rates r)
  | Running st => Forall unit_rate (accept_rates st)
  | Raised _ => True
  end.
Proof.
  intros HN Hn. rewrite nested_sampling_loop by lia.
  pose proof (loop_invariant src (Z.to_nat n) (Z.to_nat N) (fmul_int n a)
                (fun st => Forall unit_rate (accept_rates st))) as H.
  assert (HN' : (1 <= Z.to_nat N)%nat) by lia.
  assert (Hn' : (1 <= Z.to_nat n)%nat) by lia.
  specialize (H (fun st st' => rates_next src _ _ _ st st' HN' Hn')
                fuel (initial src (Z.to_nat n) (Z.to_nat N))
                (Forall_nil _)).
  destruct (level_loop _ _ _ _ _ _) as [r | e | st]; [| exact I | exact H].
  destruct H as (last & st' & Hall & Hb & ->).
  apply level_break in Hb. destruct Hb as (_ & _ & _ & _ & Hacc & _).
  cbn [finish res_accept_rates]. rewrite Hacc. exact Hall.
Qed.

Lemma accept_rates_in_unit_interval_witness :
  match nested_sampling 5 ramp_source 2 (Fin 20) 4 with
  | Returned r => Forall unit_rate (res_accept_rates r)
  | Running st => Forall unit_rate (accept_rates st)
  | Raised _ => True
  end.
Proof.
  apply (accept_rates_in_unit_interval 5 ramp_source 2 (Fin 20) 4); lia.
Defined.

(** ** The recorded variances *)

Lemma var_median_positive (N : nat) (sums : list Q) (v : float64) :
  (1 <= N)%nat -> var_median N sums = Some v -> positive_or_inf v.
Proof.
  intros HN. unfold var_median.
  destruct (percentile sums 75) as [q75 |]; [| discriminate].
  destruct (percentile sums 50) as [q50 |]; [| discriminate].
  intros H. injection H as <-.
  destruct (q50 ?= q75) eqn:C; try (left; reflexivity).
  right. eexists. split; [reflexivity |].
  apply Qlt_alt in C.
  assert (HNq : 0 < inject_Z (Z.of_nat N)).
  { change 0 with (inject_Z 0). rewrite <- Zlt_Qlt. lia. }
  assert (Hf : 0 < density_proxy N q75 q50).
  { unfold density_proxy. apply Qlt_shift_div_l; [lra |].
    rewrite Qmult_0_l. apply Qlt_shift_div_l; [reflexivity | lra]. }
  set (f_u := density_proxy N q75 q50) in *.
  apply Qlt_shift_div_l; [| lra].
  change (f_u ^ 2) with (f_u * f_u).
  apply Qmult_lt_0_compat;
    [apply Qmult_lt_0_compat; [reflexivity | exact HNq]
    | apply Qmult_lt_0_compat; exact Hf].
Qed.

Lemma vars_next (src : source) (n N : nat) (target : float64)
  (st st' : state) :
  (1 <= N)%nat ->
  Forall positive_or_inf (vars_median st) ->
  level src n N target st = Next st' ->
  Forall positive_or_inf (vars_median st').
Proof.
  intros HN Hall Hstep. apply level_next in Hstep. cbv zeta in Hstep.
  destruct Hstep as (_ & _ & _ & (v & Hv & ->) & _).
  apply Forall_app. split; [exact Hall |].
  constructor; [exact (var_median_positive _ _ _ HN Hv) | constructor].
Qed.

(** X5: for N >= 1 every variance of the median recorded by the estimator
    is either [+inf] or a positive finite number; it is never NaN, zero or
    negative. *)
Theorem recorded_variances_positive (fuel : nat) (src : source) (n : Z)
  (a : float64) (N : Z) :
  (1 <= N)%Z ->
  match nested_sampling fuel src n a N with
  | Returned r => Forall positive_or_inf (res_vars_median r)
  | Running st => Forall positive_or_inf (vars_median st)
  | Raised _ => True
  end.
Proof.
  intros HN. unfold nested_sampling.
  destruct ((N <? 0)%Z || (n <? 0)%Z); [exact I |].
  assert (HN' : (1 <= Z.to_nat N)%nat) by lia.
  pose proof (loop_invariant src (Z.to_nat n) (Z.to_nat N) (fmul_int n a)
                (fun st => Forall positive_or_inf (vars_median st))
                (fun st st' => vars_next src _ _ _ st st' HN')
                fuel (initial src (Z.to_nat n) (Z.to_nat N))
                (Forall_nil _)) as H.
  destruct (level_loop _ _ _ _ _ _) as [r | e | st]; [| exact I | exact H].
  destruct H as (last & st' & Hall & Hb & ->).
  apply level_break in Hb. destruct Hb as (_ & _ & _ & (v & Hv & Hvars) & _).
  cbn [finish res_vars_median]. rewrite Hvars.
  apply Forall_app. split; [exact Hall |].
  constructor; [exact (var_median_positive _ _ _ HN' Hv) | constructor].
Qed.

Lemma recorded_variances_positive_witness :
  match nested_sampling 5 ramp_source 2 (Fin 20) 4 with
  | Returned r => Forall positive_or_inf (res_vars_median r)
  | Running st => Forall positive_or_inf (vars_median st)
  | Raised _ => True
  end.
Proof.
  apply (recorded_variances_positive 5 ramp_source 2 (Fin 20) 4). lia.
Defined.

(** ** Edge inputs of the entry point *)

Lemma fge_NaN (x : float64) : fge x NaN = false.
Proof. destruct x; reflexivity. Qed.

Lemma var_median_some (N : nat) (sums : list Q) :
  sums <> [] -> exists v, var_median N sums = Some v.
Proof.
  intros Hne. unfold var_median.
  rewrite !(percentile_nonempty sums _ Hne). eexists. reflexivity.
Qed.

Lemma row_sums_nonempty (Y : matrix) : Y <> [] -> row_sums Y <> [].
Proof. destruct Y; [congruence | discriminate]. Qed.

Lemma level_loop_converged (src : source) (n N : nat) (target : float64)
  (fuel : nat) (st : state) :
  X st <> [] ->
  fge (median (row_sums (X st))) target = true ->
  exists r, level_loop (S fuel) src n N target st = Returned r
            /\ K r = iteration st
            /\ probability r = pow_half (iteration st)
            /\ res_accept_rates r = accept_rates st
            /\ final_samples r = X st.
Proof.
  intros Hne Hstop. cbn [level_loop]. unfold level. cbv zeta.
  destruct (var_median_some N _ (row_sums_nonempty _ Hne)) as (v & ->).
  rewrite Hstop. eexists. split; [reflexivity |]. repeat split.
Qed.

Lemma initial_nonempty (src : source) (n N : nat) :
  (1 <= N)%nat -> X (initial src n N) <> [].
Proof.
  intros HN. apply nonempty_length. unfold initial, randn_mat. cbn [X].
  rewrite length_map, length_seq. exact HN.
Qed.

Lemma initial_median (src : source) (n N : nat) :
  (1 <= N)%nat ->
  exists m, median (row_sums (X (initial src n N))) = Fin m.
Proof.
  intros HN.
  destruct (median_finite (row_sums (X (initial src n N)))) as (m & E & _).
  - apply nonempty_length. unfold row_sums, initial, randn_mat. cbn [X].
    rewrite !length_map, length_seq. exact HN.
  - exists m. exact E.
Qed.

Lemma empty_rows_median (src : source) (N : nat) :
  (1 <= N)%nat ->
  exists m, median (row_sums (X (initial src 0 N))) = Fin m /\ m == 0.
Proof.
  intros HN.
  set (v := row_sums (X (initial src 0 N))).
  assert (Hall : forall x, In x v -> x = 0).
  { intros x Hx. unfold v, row_sums, initial, randn_mat in Hx. cbn [X] in Hx.
    rewrite map_map in Hx. apply in_map_iff in Hx.
    destruct Hx as (i & <- & _). reflexivity. }
  assert (Hne : v <> []).
  { apply nonempty_length. unfold v, row_sums, initial, randn_mat. cbn [X].
    rewrite !length_map, length_seq. exact HN. }
  assert (Hlen : (1 <= length v)%nat)
    by (destruct v; [congruence | simpl; lia]).
  destruct (median_finite v Hne) as (m & E & Hup & Hlo).
  exists m. split; [exact E |].
  assert (H0 : nth (length v / 2) (sorted v) 0 = 0).
  { apply Hall, sorted_nth_In, Nat.div_lt; lia. }
  rewrite H0 in Hup. apply Qle_antisym; [exact Hup |].
  apply Hlo. intros x Hx. rewrite (Hall x Hx). apply Qle_refl.
Qed.

(** X7: with n = 0 and N >= 1 the population has no coordinates and every
    statistic is 0.  For every finite [a], however large, the call returns
    at the first level with K = 0, probability 1 and no acceptance rate;
    for a non-finite [a] the target [0 * a] is NaN and the first level
    ends in the division [0 / (N * 0)], a ZeroDivisionError. *)
Theorem zero_dimension (fuel : nat) (src : source) (N : Z) :
  (1 <= N)%Z ->
  (forall q : Q,
     exists r, nested_sampling (S fuel) src 0 (Fin q) N = Returned r
               /\ K r = 0%nat /\ probability r == 1
               /\ res_accept_rates r = [])
  /\ (forall a : float64, is_finite a = false ->
        nested_sampling (S fuel) src 0 a N = Raised ZeroDivisionError).
Proof.
  intros HN. assert (HN' : (1 <= Z.to_nat N)%nat) by lia.
  split.
  - intros q. rewrite nested_sampling_loop by lia.
    change (Z.to_nat 0) with 0%nat.
    destruct (empty_rows_median src (Z.to_nat N) HN') as (m & Em & Hm).
    destruct (level_loop_converged src 0 (Z.to_nat N) (fmul_int 0 (Fin q))
                fuel (initial src 0 (Z.to_nat N))
                (initial_nonempty src 0 (Z.to_nat N) HN'))
      as (r & E & HK & Hp & Ha & _).
    + rewrite Em. cbn [fmul_int]. apply fge_Fin. rewrite Hm.
      change (inject_Z 0) with 0. rewrite Qmult_0_l. apply Qle_refl.
    + exists r. split; [exact E |]. split; [exact HK |].
      split; [rewrite Hp; reflexivity | exact Ha].
  - intros a Ha. rewrite nested_sampling_loop by lia.
    change (Z.to_nat 0) with 0%nat.
    assert (Et : fmul_int 0 a = NaN)
      by (destruct a; try reflexivity; discriminate).
    rewrite Et. cbn [level_loop]. unfold level. cbv zeta.
    set (st0 := initial src 0 (Z.to_nat N)).
    destruct (var_median_some (Z.to_nat N) _
                (row_sums_nonempty _ (initial_nonempty src 0 _ HN')))
      as (v & Ev).
    fold st0 in Ev. rewrite Ev, fge_NaN. unfold advance. cbv zeta.
    assert (Hsurv : select (X st0) (row_sums (X st0))
                      (median (row_sums (X st0))) <> []).
    { apply survivors_nonempty. unfold st0, initial, randn_mat. cbn [X].
      rewrite length_map, length_seq. exact HN'. }
    destruct (resample_some src (Z.to_nat N) (cursor st0) _ Hsurv)
      as (X1 & E & _).
    rewrite E. reflexivity.
Qed.

Lemma zero_dimension_witness :
  (exists r, nested_sampling 1 unit_source 0 (Fin 1000000) 3 = Returned r
             /\ K r = 0%nat /\ probability r == 1
             /\ res_accept_rates r = [])
  /\ nested_sampling 1 unit_source 0 PosInf 3 = Raised ZeroDivisionError.
Proof.
  split.
  - apply (proj1 (zero_dimension 0 unit_source 3 ltac:(lia))).
  - apply (proj2 (zero_dimension 0 unit_source 3 ltac:(lia))). reflexivity.
Defined.

Lemma never_breaks (src : source) (n N : nat) (target : float64)
  (st st' : state) :
  (1 <= N)%nat -> target = PosInf \/ target = NaN ->
  ordered N st -> level src n N target st <> Break st'.
Proof.
  intros HN Ht (Hlen & _) Hb. apply level_break in Hb.
  destruct Hb as (Hstop & _).
  destruct (median_finite (row_sums (X st))) as (m & Em & _).
  - apply nonempty_length. unfold row_sums. rewrite length_map. lia.
  - rewrite Em in Hstop. destruct Ht as [-> | ->]; discriminate.
Qed.

(** X8: a non-finite [a] is not rejected.  For N >= 1 and n >= 1 the call
    with [a = -inf] returns at the first level with K = 0 and probability
    1, and the call with [a = +inf] or [a = NaN] never returns: after any
    number of iterations it is still looping, whatever the draws. *)
Theorem non_finite_target (fuel : nat) (src : source) (n N : Z) :
  (1 <= N)%Z -> (1 <= n)%Z ->
  (exists r, nested_sampling (S fuel) src n NegInf N = Returned r
             /\ K r = 0%nat /\ probability r == 1)
  /\ (forall a, a = PosInf \/ a = NaN ->
        exists st, nested_sampling fuel src n a N = Running st
                   /\ iteration st = fuel).
Proof.
  intros HN Hn. assert (HN' : (1 <= Z.to_nat N)%nat) by lia.
  assert (Hn' : (1 <= Z.to_nat n)%nat) by lia.
  split.
  - rewrite nested_sampling_loop by lia.
    destruct (initial_median src (Z.to_nat n) (Z.to_nat N) HN') as (m & Em).
    destruct (level_loop_converged src (Z.to_nat n) (Z.to_nat N)
                (fmul_int n NegInf) fuel
                (initial src (Z.to_nat n) (Z.to_nat N))
                (initial_nonempty src _ _ HN'))
      as (r & E & HK & Hp & _).
    + rewrite Em. destruct n; try lia. reflexivity.
    + exists r. split; [exact E |]. split; [exact HK |].
      rewrite Hp. reflexivity.
  - intros a Ha. rewrite nested_sampling_loop by lia.
    assert (Ht : fmul_int n a = PosInf \/ fmul_int n a = NaN).
    { destruct Ha as [-> | ->]; [left | right]; [| reflexivity].
      destruct n; try lia. reflexivity. }
    pose proof (loop_invariant src (Z.to_nat n) (Z.to_nat N) (fmul_int n a)
                  (ordered (Z.to_nat N))
                  (fun st st' => ordered_next src _ _ _ st st' HN')
                  fuel (initial src (Z.to_nat n) (Z.to_nat N))
                  (initial_ordered _ _ _)) as Hinv.
    destruct (loop_progress src (Z.to_nat n) (Z.to_nat N) (fmul_int n a)
                fuel (initial src (Z.to_nat n) (Z.to_nat N)) HN' Hn'
                (initial_ordered _ _ _))
      as [(r & E & _) | (st & E & Hit)].
    + rewrite E in Hinv. destruct Hinv as (last & st' & Hord & Hb & _).
      exfalso. eapply never_breaks; [exact HN' | exact Ht | exact Hord | exact Hb].
    + exists st. split; [exact E | exact Hit].
Qed.

Lemma non_finite_target_witness :
  (exists r, nested_sampling 1 ramp_source 2 NegInf 4 = Returned r
             /\ K r = 0%nat /\ probability r == 1)
  /\ (exists st, nested_sampling 3 ramp_source 2 PosInf 4 = Running st
                 /\ iteration st = 3%nat).
Proof.
  split.
  - apply (proj1 (non_finite_target 0 ramp_source 2 4 ltac:(lia) ltac:(lia))).
  - apply (proj2 (non_finite_target 3 ramp_source 2 4 ltac:(lia) ltac:(lia))).
    left. reflexivity.
Defined.

(** ** What a sweep changes *)

Lemma set_nth_nth (j k : nat) (v : Q) (row : list Q) :
  nth k (set_nth j v row) 0
  = if (k =? j)%nat && (j <? length row)%nat then v else nth k row 0.
Proof.
  revert j k. induction row as [| x rest IH]; intros j k.
  - cbn [set_nth length]. rewrite andb_false_r. destruct j; reflexivity.
  - destruct j as [| j], k as [| k]; cbn [set_nth nth length]; try reflexivity.
    rewrite IH. reflexivity.
Qed.

Lemma gibbs_row_entry (u : float64) (j k : nat) (row : list Q) (p : Q) :
  nth k (fst (gibbs_row u j row p)) 0 = nth k row 0
  \/ (k = j /\ nth k (fst (gibbs_row u j row p)) 0 = p).
Proof.
  unfold gibbs_row. cbv zeta. cbn [fst].
  destruct (fge _ u); [| left; reflexivity].
  rewrite set_nth_nth.
  destruct (Nat.eqb_spec k j) as [-> | Hk]; [| left; reflexivity].
  destruct (j <? length row)%nat; [right; split; reflexivity | left; reflexivity].
Qed.

Lemma gibbs_coord_nth (u : float64) (j i : nat) (Y : matrix)
  (props : list Q) :
  length props = length Y ->
  nth i (fst (gibbs_coord u j Y props)) []
  = fst (gibbs_row u j (nth i Y []) (nth i props 0)).
Proof.
  unfold gibbs_coord. cbv zeta. cbn [fst]. rewrite map_map.
  revert i props. induction Y as [| row Y IH]; intros i props Hlen.
  - destruct props; [| discriminate]. cbn [combine map nth].
    destruct i, j; unfold gibbs_row; cbv zeta; cbn [fst];
      destruct (fge _ u); reflexivity.
  - destruct props as [| p props]; [discriminate |].
    cbn [combine map]. destruct i as [| i]; [reflexivity |].
    cbn [nth]. apply IH. simpl in Hlen. lia.
Qed.

Lemma gibbs_loop_entry (u : float64) (coords : list nat)
  (proposals : nat -> list Q) (Y : matrix) (total : nat) :
  (forall j, In j coords -> length (proposals j) = length Y) ->
  forall i k,
    entry (fst (gibbs_loop u coords proposals Y total)) i k = entry Y i k
    \/ (In k coords
        /\ entry (fst (gibbs_loop u coords proposals Y total)) i k
           = nth i (proposals k) 0).
Proof.
  revert Y total. induction coords as [| j rest IH]; intros Y total Hlen i k;
    cbn [gibbs_loop]; [left; reflexivity |].
  assert (Hj : length (proposals j) = length Y) by (apply Hlen; left; reflexivity).
  pose proof (gibbs_coord_nth u j i Y (proposals j) Hj) as Hrow.
  pose proof (gibbs_coord_length u j Y (proposals j) Hj) as HlenY'.
  destruct (gibbs_coord u j Y (proposals j)) as [Y' acc]. cbn [fst] in *.
  destruct (IH Y' (total + acc)%nat) with (i := i) (k := k)
    as [Hsame | (Hin & Hprop)].
  - intros j' Hj'. rewrite HlenY'. apply Hlen. right. exact Hj'.
  - unfold entry in *. rewrite Hsame, Hrow.
    destruct (gibbs_row_entry u j k (nth i Y []) (nth i (proposals j) 0))
      as [E | (-> & E)].
    + left. exact E.
    + right. split; [left; reflexivity | exact E].
  - right. split; [right; exact Hin | exact Hprop].
Qed.

(** X9: after a sweep over a population of N rows, with N proposals per
    coordinate, every entry [i, k] of the result is either the entry the
    population had before the sweep or, for [k < n], the proposal drawn
    for row [i] at coordinate [k]; the same holds for the cached pass on a
    population of width [n]. *)
Theorem sweep_entries (u : float64) (n : nat) (proposals : nat -> list Q)
  (Y : matrix) :
  width n Y ->
  (forall j, (j < n)%nat -> length (proposals j) = length Y) ->
  forall i k,
    (entry (fst (gibbs_pass u n proposals Y)) i k = entry Y i k
     \/ ((k < n)%nat
         /\ entry (fst (gibbs_pass u n proposals Y)) i k
            = nth i (proposals k) 0))
    /\ (entry (fst (refined_pass u n proposals Y)) i k = entry Y i k
        \/ ((k < n)%nat
            /\ entry (fst (refined_pass u n proposals Y)) i k
               = nth i (proposals k) 0)).
Proof.
  intros Hw Hlen i k.
  assert (H : entry (fst (gibbs_pass u n proposals Y)) i k = entry Y i k
              \/ ((k < n)%nat
                  /\ entry (fst (gibbs_pass u n proposals Y)) i k
                     = nth i (proposals k) 0)).
  { unfold gibbs_pass.
    destruct (gibbs_loop_entry u (seq 0 n) proposals Y 0) with (i := i) (k := k)
      as [E | (Hin & E)].
    - intros j Hj. apply Hlen. apply in_seq in Hj. lia.
    - left. exact E.
    - right. split; [apply in_seq in Hin; lia | exact E]. }
  split; [exact H |].
  destruct (refined_loop_gibbs u n (seq 0 n) proposals Y (row_sums Y) 0 Hw)
    as (E & _ & _); [| apply cached_row_sums |].
  - intros j Hj. apply in_seq in Hj. lia.
  - unfold refined_pass.
    destruct (refined_loop u (seq 0 n) proposals Y (row_sums Y) 0)
      as [[Y' sums'] total]. cbn [fst] in *. rewrite E. exact H.
Qed.

Lemma sweep_entries_witness :
  entry (fst (gibbs_pass (Fin 1) 2 sample_proposals sample_population)) 0 0
  = entry sample_population 0 0
  \/ ((0 < 2)%nat
      /\ entry (fst (gibbs_pass (Fin 1) 2 sample_proposals sample_population))
           0 0
         = nth 0 (sample_proposals 0) 0).
Proof.
  apply (sweep_entries (Fin 1) 2 sample_proposals sample_population).
  - repeat constructor.
  - intros j _. reflexivity.
Defined.

Lemma gibbs_coord_none (u : float64) (j : nat) (Y : matrix)
  (props : list Q) :
  length props = length Y ->
  snd (gibbs_coord u j Y props) = 0%nat ->
  fst (gibbs_coord u j Y props) = Y.
Proof.
  unfold gibbs_coord. cbv zeta. cbn [fst snd]. rewrite !map_map.
  revert props. induction Y as [| row Y IH]; intros props Hlen Hz.
  - reflexivity.
  - destruct props as [| p props]; [discriminate |].
    cbn [combine map fst snd] in *. rewrite mask_count_cons in Hz.
    unfold gibbs_row in *. cbv zeta in *. cbn [fst snd] in *.
    destruct (fge (Fin (row_sum row - nth j row 0 + p)) u); [discriminate |].
    f_equal. apply IH; [simpl in Hlen; lia | exact Hz].
Qed.

Lemma gibbs_loop_total (u : float64) (coords : list nat)
  (proposals : nat -> list Q) (Y : matrix) (total : nat) :
  (total <= snd (gibbs_loop u coords proposals Y total))%nat.
Proof.
  revert Y total. induction coords as [| j rest IH]; intros Y total;
    cbn [gibbs_loop]; [reflexivity |].
  destruct (gibbs_coord u j Y (proposals j)) as [Y' acc].
  etransitivity; [| apply IH]. lia.
Qed.

Lemma gibbs_loop_none (u : float64) (coords : list nat)
  (proposals : nat -> list Q) (Y : matrix) (total : nat) :
  (forall j, In j coords -> length (proposals j) = length Y) ->
  snd (gibbs_loop u coords proposals Y total) = total ->
  fst (gibbs_loop u coords proposals Y total) = Y.
Proof.
  revert Y total. induction coords as [| j rest IH]; intros Y total Hlen Hz;
    cbn [gibbs_loop] in *; [reflexivity |].
  assert (Hj : length (proposals j) = length Y) by (apply Hlen; left; reflexivity).
  pose proof (gibbs_coord_none u j Y (proposals j) Hj) as Hnone.
  destruct (gibbs_coord u j Y (proposals j)) as [Y' acc]. cbn [fst snd] in *.
  pose proof (gibbs_loop_total u rest proposals Y' (total + acc)) as Hmono.
  assert (Hacc : acc = 0%nat) by lia.
  rewrite (Hnone Hacc) in *. subst acc. rewrite Nat.add_0_r in *.
  apply IH; [| exact Hz].
  intros j' Hj'. apply Hlen. right. exact Hj'.
Qed.

(** X10: a sweep that accepts no proposal returns the population it was
    given, row for row. *)
Theorem sweep_without_acceptance (u : float64) (n : nat)
  (proposals : nat -> list Q) (Y : matrix) :
  (forall j, (j < n)%nat -> length (proposals j) = length Y) ->
  snd (gibbs_pass u n proposals Y) = 0%nat ->
  fst (gibbs_pass u n proposals Y) = Y.
Proof.
  intros Hlen Hz. unfold gibbs_pass in *. apply gibbs_loop_none; [| exact Hz].
  intros j Hj. apply Hlen. apply in_seq in Hj. lia.
Qed.

Lemma sweep_without_acceptance_witness :
  fst (gibbs_pass (Fin 4) 2 sample_proposals sample_population)
  = sample_population.
Proof.
  apply (sweep_without_acceptance (Fin 4) 2 sample_proposals sample_population).
  - intros j _. reflexivity.
  - reflexivity.
Defined.

(** ** More on the order statistics *)

Lemma parity_cases (N : nat) :
  (Nat.odd N = true /\ N = (2 * (N / 2) + 1)%nat)
  \/ (Nat.odd N = false /\ N = (2 * (N / 2))%nat).
Proof.
  pose proof (Nat.div2_odd N) as H. rewrite Nat.div2_div in H.
  destruct (Nat.odd N); cbn [Nat.b2n] in H; [left | right];
    (split; [reflexivity | lia]).
Qed.

Lemma fraction_range (p : Q) :
  0 <= p -> p <= 100 -> 0 <= p / 100 /\ p / 100 <= 1.
Proof.
  intros H0 H1. split.
  - apply Qle_shift_div_l; [reflexivity | lra].
  - apply Qle_shift_div_r; [reflexivity | lra].
Qed.

Lemma inject_nat_nonneg (k : nat) : 0 <= inject_Z (Z.of_nat k).
Proof. change 0 with (inject_Z 0). rewrite <- Zle_Qle. lia. Qed.

(** The virtual index of a percentile lies within the ranks [0 .. N-1]. *)
Lemma virtual_index_range (N : nat) (p : Q) :
  0 <= p -> p <= 100 ->
  0 <= p / 100 * inject_Z (Z.of_nat (N - 1))
  /\ p / 100 * inject_Z (Z.of_nat (N - 1)) <= inject_Z (Z.of_nat (N - 1)).
Proof.
  intros H0 H1. destruct (fraction_range p H0 H1) as (Hc0 & Hc1).
  pose proof (inject_nat_nonneg (N - 1)) as HV.
  set (c := p / 100) in *. set (V := inject_Z (Z.of_nat (N - 1))) in *.
  assert (A : 0 <= c * V) by (apply Qmult_le_0_compat; assumption).
  assert (B : 0 <= (1 - c) * V) by (apply Qmult_le_0_compat; lra).
  split; lra.
Qed.

Lemma floor_index_range (N : nat) (p : Q) :
  0 <= p -> p <= 100 ->
  (0 <= Qfloor (p / 100 * inject_Z (Z.of_nat (N - 1))) <= Z.of_nat (N - 1))%Z.
Proof.
  intros H0 H1. destruct (virtual_index_range N p H0 H1) as (A & B). split.
  - change 0%Z with (Qfloor 0). apply Qfloor_resp_le, A.
  - pose proof (Qfloor_resp_le _ _ B) as H. rewrite Qfloor_Z in H. exact H.
Qed.

(** A percentile lies between the two order statistics it interpolates. *)
Lemma lerp_between (v : list Q) (p : Q) :
  v <> [] -> 0 <= p -> p <= 100 ->
  let i := Z.to_nat (Qfloor (p / 100 * inject_Z (Z.of_nat (length v - 1)))) in
  (i <= length v - 1)%nat
  /\ nth i (sorted v) 0 <= lerp_quantile (sorted v) (length v) p
  /\ lerp_quantile (sorted v) (length v) p
     <= nth (Nat.min (i + 1) (length v - 1)) (sorted v) 0.
Proof.
  intros Hne H0 H1 i.
  assert (HN : (1 <= length v)%nat) by (destruct v; [congruence | simpl; lia]).
  pose proof (floor_index_range (length v) p H0 H1) as Hfl.
  assert (Hi : (i <= length v - 1)%nat) by (unfold i; lia).
  split; [exact Hi |].
  unfold lerp_quantile. cbv zeta. fold i.
  destruct (gamma_range (p / 100 * inject_Z (Z.of_nat (length v - 1))))
    as (Hg0 & Hg1).
  set (g := p / 100 * inject_Z (Z.of_nat (length v - 1))
            - inject_Z (Qfloor (p / 100 * inject_Z (Z.of_nat (length v - 1)))))
    in *.
  assert (Hstep : nth i (sorted v) 0
                  <= nth (Nat.min (i + 1) (length v - 1)) (sorted v) 0)
    by (apply sorted_nth_le; lia).
  set (lo := nth i (sorted v) 0) in *.
  set (hi := nth (Nat.min (i + 1) (length v - 1)) (sorted v) 0) in *.
  assert (A : 0 <= (hi - lo) * g) by (apply Qmult_le_0_compat; lra).
  assert (B : 0 <= (hi - lo) * (1 - g)) by (apply Qmult_le_0_compat; lra).
  split; lra.
Qed.

Lemma lerp_monotone (v : list Q) (p p' : Q) :
  v <> [] -> 0 <= p -> p <= p' -> p' <= 100 ->
  lerp_quantile (sorted v) (length v) p
  <= lerp_quantile (sorted v) (length v) p'.
Proof.
  intros Hne H0 Hpp H1.
  assert (HN : (1 <= length v)%nat) by (destruct v; [congruence | simpl; lia]).
  assert (Hp1 : p <= 100) by lra. assert (Hp0 : 0 <= p') by lra.
  destruct (lerp_between v p Hne H0 Hp1) as (Hi & Hlo & Hhi).
  destruct (lerp_between v p' Hne Hp0 H1) as (Hi' & Hlo' & Hhi').
  cbv zeta in *.
  pose proof (floor_index_range (length v) p H0 Hp1) as Hfl.
  pose proof (floor_index_range (length v) p' Hp0 H1) as Hfl'.
  pose proof (inject_nat_nonneg (length v - 1)) as HV.
  assert (Hvi : p / 100 * inject_Z (Z.of_nat (length v - 1))
                <= p' / 100 * inject_Z (Z.of_nat (length v - 1))).
  { apply Qmult_le_compat_r; [| exact HV].
    apply Qle_shift_div_l; [reflexivity |].
    setoid_replace (p / 100 * 100) with p by field. exact Hpp. }
  pose proof (Qfloor_resp_le _ _ Hvi) as Hmono.
  set (vi := p / 100 * inject_Z (Z.of_nat (length v - 1))) in *.
  set (vi' := p' / 100 * inject_Z (Z.of_nat (length v - 1))) in *.
  destruct (Z.eq_dec (Qfloor vi) (Qfloor vi')) as [Heq | Hneq].
  - unfold lerp_quantile. cbv zeta. fold vi vi'. rewrite <- Heq.
    set (lo := nth (Z.to_nat (Qfloor vi)) (sorted v) 0).
    set (hi := nth (Nat.min (Z.to_nat (Qfloor vi) + 1) (length v - 1))
                 (sorted v) 0).
    assert (Hstep : lo <= hi) by (apply sorted_nth_le; lia).
    assert (A : 0 <= (hi - lo) * (vi' - vi))
      by (apply Qmult_le_0_compat; lra).
    lra.
  - eapply Qle_trans; [exact Hhi |]. eapply Qle_trans; [| exact Hlo'].
    apply sorted_nth_le. lia.
Qed.

(** X11: [np.percentile] is monotone in the percentage: for a non-empty
    vector and 0 <= p <= p' <= 100 the p-th percentile is at most the p'-th;
    in particular Q25 <= Q50 <= Q75, so the branch [q75 > q50] of the
    variance estimate fails only when Q75 = Q50. *)
Theorem percentile_monotone (v : list Q) (p p' : Q) :
  v <> [] -> 0 <= p -> p <= p' -> p' <= 100 ->
  exists q q',
    percentile v p = Some q /\ percentile v p' = Some q' /\ q <= q'.
Proof.
  intros Hne H0 Hpp H1.
  exists (lerp_quantile (sorted v) (length v) p),
         (lerp_quantile (sorted v) (length v) p').
  split; [apply percentile_nonempty, Hne |].
  split; [apply percentile_nonempty, Hne |].
  apply lerp_monotone; assumption.
Qed.

Lemma percentile_monotone_witness :
  exists q q', percentile tied_vector 50 = Some q
               /\ percentile tied_vector 75 = Some q' /\ q <= q'.
Proof.
  apply (percentile_monotone tied_vector 50 75);
    [discriminate | discriminate | discriminate | discriminate].
Defined.

Lemma median_as_percentile (v : list Q) :
  v <> [] ->
  exists m, median v = Fin m /\ lerp_quantile (sorted v) (length v) 50 == m.
Proof.
  intros Hne.
  assert (HN : (1 <= length v)%nat) by (destruct v; [congruence | simpl; lia]).
  unfold median. destruct v as [| x0 v0] eqn:Ev; [congruence |].
  rewrite <- Ev in *. clear Ev x0 v0.
  destruct (parity_cases (length v)) as [(Hodd & HNm) | (Hodd & HNm)];
    rewrite Hodd; eexists; (split; [reflexivity |]);
    set (m := (length v / 2)%nat) in *.
  - unfold lerp_quantile. cbv zeta. rewrite HNm.
    replace (2 * m + 1 - 1)%nat with (2 * m)%nat by lia.
    assert (Evi : 50 / 100 * inject_Z (Z.of_nat (2 * m))
                  == inject_Z (Z.of_nat m)).
    { replace (Z.of_nat (2 * m)) with (2 * Z.of_nat m)%Z by lia.
      rewrite inject_Z_mult.
      setoid_replace (50 / 100) with (1 # 2) by reflexivity.
      change (inject_Z 2) with 2. ring. }
    rewrite (Qfloor_comp _ _ Evi), Qfloor_Z, Evi, Nat2Z.id. ring.
  - assert (Hm : (1 <= m)%nat) by lia.
    unfold lerp_quantile. cbv zeta. rewrite HNm.
    destruct (median_index m Hm) as (Efl & Eg). cbv zeta in Efl, Eg.
    rewrite Eg, Efl.
    replace (Z.to_nat (Z.of_nat m - 1)) with (m - 1)%nat by lia.
    replace (Nat.min (m - 1 + 1) (2 * m - 1)) with m by lia.
    field.
Qed.

Lemma sorted_Forall (P : Q -> Prop) (v : list Q) :
  Forall P v -> forall i, (i < length v)%nat -> P (nth i (sorted v) 0).
Proof.
  intros H i Hi. rewrite Forall_forall in H. apply H, sorted_nth_In, Hi.
Qed.

(** X13: every percentile and the median of a non-empty vector lie between
    any lower bound and any upper bound of its entries, hence between its
    smallest and its largest entry. *)
Theorem order_statistics_in_range (v : list Q) (p lo hi : Q) :
  v <> [] -> 0 <= p -> p <= 100 ->
  (forall x, In x v -> lo <= x) -> (forall x, In x v -> x <= hi) ->
  (exists m, median v = Fin m /\ lo <= m /\ m <= hi)
  /\ (exists q, percentile v p = Some q /\ lo <= q /\ q <= hi).
Proof.
  intros Hne H0 H1 Hlo Hhi.
  assert (HN : (1 <= length v)%nat) by (destruct v; [congruence | simpl; lia]).
  split.
  - destruct (median_finite v Hne) as (m & Em & Hup & Hlow).
    exists m. split; [exact Em |]. split; [apply Hlow, Hlo |].
    eapply Qle_trans; [exact Hup |].
    apply Hhi, sorted_nth_In, Nat.div_lt; lia.
  - exists (lerp_quantile (sorted v) (length v) p).
    split; [apply percentile_nonempty, Hne |].
    destruct (lerp_between v p Hne H0 H1) as (Hi & A & B). cbv zeta in *.
    split.
    + eapply Qle_trans; [| exact A]. apply Hlo, sorted_nth_In. lia.
    + eapply Qle_trans; [exact B |]. apply Hhi, sorted_nth_In. lia.
Qed.

Lemma order_statistics_in_range_witness :
  (exists m, median tied_vector = Fin m /\ 1 <= m /\ m <= 3)
  /\ (exists q, percentile tied_vector 75 = Some q /\ 1 <= q /\ q <= 3).
Proof.
  apply (order_statistics_in_range tied_vector 75 1 3);
    try discriminate;
    intros x [<- | [<- | [<- | [<- | []]]]]; discriminate.
Defined.

(** X14: on a non-empty vector whose entries are all equal to [c] (complete
    ties, a degenerate population) the median is [c] and the variance of
    the median is [+inf], whatever N. *)
Theorem constant_vector (N : nat) (v : list Q) (c : Q) :
  v <> [] -> Forall (fun x => x == c) v ->
  feq (median v) (Fin c) /\ var_median N v = Some PosInf.
Proof.
  intros Hne Hall.
  assert (HN : (1 <= length v)%nat) by (destruct v; [congruence | simpl; lia]).
  assert (Hq : forall p, 0 <= p -> p <= 100 ->
                 lerp_quantile (sorted v) (length v) p == c).
  { intros p H0 H1.
    destruct (lerp_between v p Hne H0 H1) as (Hi & _). cbv zeta in Hi.
    unfold lerp_quantile. cbv zeta.
    rewrite (sorted_Forall _ v Hall _) by lia.
    rewrite (sorted_Forall _ v Hall _) by lia. ring. }
  split.
  - destruct (median_as_percentile v Hne) as (m & Em & Hm).
    rewrite Em. cbn [feq]. rewrite <- Hm. apply Hq; discriminate.
  - unfold var_median. rewrite !(percentile_nonempty v _ Hne).
    assert (E : lerp_quantile (sorted v) (length v) 50
                == lerp_quantile (sorted v) (length v) 75).
    { rewrite !Hq by discriminate. reflexivity. }
    apply Qeq_alt in E. rewrite E. reflexivity.
Qed.

Lemma constant_vector_witness :
  feq (median [2; 2; 2]) (Fin 2) /\ var_median 3 [2; 2; 2] = Some PosInf.
Proof.
  apply (constant_vector 3 [2; 2; 2] 2); [discriminate |].
  repeat constructor.
Defined.

(** ** Sorting vectors that hold the same numbers *)

Lemma merge_compat (l1 l1' : list Q) :
  Forall2 Qeq l1 l1' ->
  forall l2 l2', Forall2 Qeq l2 l2' ->
    Forall2 Qeq (QSort.merge l1 l2) (QSort.merge l1' l2').
Proof.
  induction 1 as [| a a' l1 l1' Ha H1 IH1].
  - intros l2 l2' H2. destruct H2; simpl; constructor; assumption.
  - induction 1 as [| b b' l2 l2' Hb H2 IH2]; simpl.
    + constructor; assumption.
    + unfold QOrder.leb. rewrite Ha, Hb.
      destruct (Qle_bool a' b'); constructor; try assumption.
      apply IH1. constructor; assumption.
Qed.

Lemma merge_list_to_stack_compat (st st' : list (option (list Q))) :
  stack_eq st st' ->
  forall l l', Forall2 Qeq l l' ->
    stack_eq (QSort.merge_list_to_stack st l)
             (QSort.merge_list_to_stack st' l').
Proof.
  induction 1 as [| o o' st st' Ho Hst IH]; intros l l' Hl; simpl.
  - constructor; [exact Hl | constructor].
  - destruct o as [m |], o' as [m' |]; try contradiction.
    + constructor; [exact I |]. apply IH, merge_compat; assumption.
    + constructor; [exact Hl | exact Hst].
Qed.

Lemma merge_stack_compat (st st' : list (option (list Q))) :
  stack_eq st st' ->
  Forall2 Qeq (QSort.merge_stack st) (QSort.merge_stack st').
Proof.
  induction 1 as [| o o' st st' Ho Hst IH]; simpl; [constructor |].
  destruct o as [m |], o' as [m' |]; try contradiction.
  - apply merge_compat; assumption.
  - exact IH.
Qed.

Lemma iter_merge_compat (l l' : list Q) :
  Forall2 Qeq l l' ->
  forall st st', stack_eq st st' ->
    Forall2 Qeq (QSort.iter_merge st l) (QSort.iter_merge st' l').
Proof.
  induction 1 as [| a a' l l' Ha Hl IH]; intros st st' Hst; simpl.
  - apply merge_stack_compat, Hst.
  - apply IH, merge_list_to_stack_compat; [exact Hst |].
    constructor; [exact Ha | constructor].
Qed.

Lemma sorted_compat (v v' : list Q) :
  Forall2 Qeq v v' -> Forall2 Qeq (sorted v) (sorted v').
Proof.
  intros H. unfold sorted, QSort.sort. apply iter_merge_compat; [exact H |].
  constructor.
Qed.

Lemma nth_compat (l l' : list Q) (i : nat) :
  Forall2 Qeq l l' -> nth i l 0 == nth i l' 0.
Proof.
  intros H. revert i. induction H as [| x x' l l' Hx _ IH]; intros [| i];
    simpl; try reflexivity; [exact Hx | apply IH].
Qed.

Lemma Forall2_length_eq {A B : Type} (R : A -> B -> Prop) (l : list A)
  (l' : list B) :
  Forall2 R l l' -> length l = length l'.
Proof. induction 1; simpl; congruence. Qed.

Lemma median_compat (v v' : list Q) :
  Forall2 Qeq v v' -> feq (median v) (median v').
Proof.
  intros H. pose proof (Forall2_length_eq _ _ _ H) as Hlen.
  pose proof (sorted_compat v v' H) as Hs.
  unfold median. destruct H as [| x x' l l' Hx Hl]; [exact I |].
  rewrite <- Hlen.
  destruct (Nat.odd (length (x :: l))); cbn [feq].
  - apply nth_compat, Hs.
  - rewrite (nth_compat _ _ (length (x :: l) / 2 - 1) Hs).
    rewrite (nth_compat _ _ (length (x :: l) / 2) Hs). reflexivity.
Qed.

Lemma fge_feq (x x' u u' : float64) :
  feq x x' -> feq u u' -> fge x u = fge x' u'.
Proof.
  destruct x, x', u, u'; cbn [feq fge]; intros Hx Hu;
    try contradiction; try reflexivity.
  rewrite Hx, Hu. reflexivity.
Qed.

Lemma mask_compat (l l' : list Q) (u u' : float64) :
  Forall2 Qeq l l' -> feq u u' ->
  map (fun s => fge (Fin s) u) l = map (fun s => fge (Fin s) u') l'.
Proof.
  intros H Hu. induction H as [| x x' l l' Hx _ IH]; cbn [map];
    [reflexivity |].
  rewrite IH, (fge_feq (Fin x) (Fin x') u u' Hx Hu). reflexivity.
Qed.

(** ** The one-dimensional estimator against [nested_sampling] with n = 1 *)

Lemma column_sums (Y : matrix) :
  width 1 Y -> Forall2 Qeq (OneD.column 0 Y) (row_sums Y).
Proof.
  unfold width, OneD.column, row_sums.
  induction 1 as [| row Y Hrow _ IH]; cbn [map]; constructor; [| exact IH].
  destruct row as [| x [| y rest]]; try discriminate. cbn [nth row_sum]. ring.
Qed.

Lemma accept_one_column (u1 u : float64) (x p : Q) :
  feq u1 u -> fge (Fin p) u1 = snd (gibbs_row u 0 [x] p).
Proof.
  intros Hu. unfold gibbs_row. cbv zeta. cbn [fst snd nth row_sum].
  apply fge_feq; [| exact Hu]. cbn [feq]. ring.
Qed.

Lemma gibbs_one_column (u1 u : float64) (Y : matrix) (props : list Q) :
  width 1 Y -> length props = length Y -> feq u1 u ->
  OneD.gibbs u1 Y props = gibbs_coord u 0 Y props.
Proof.
  intros Hw Hlen Hu. unfold OneD.gibbs, gibbs_coord. cbv zeta.
  rewrite !map_map. revert props Hlen.
  induction Hw as [| row Y Hrow _ IH]; intros props Hlen.
  - destruct props; [reflexivity | discriminate].
  - destruct props as [| p props]; [discriminate |].
    cbn [map combine fst snd]. rewrite !mask_count_cons.
    specialize (IH props ltac:(simpl in Hlen; lia)).
    destruct row as [| x [| y rest]]; try discriminate.
    rewrite (accept_one_column u1 u x p Hu).
    apply pair_equal_spec in IH. destruct IH as (IH1 & IH2).
    rewrite IH1, IH2.
    unfold gibbs_row. cbv zeta. cbn [fst snd]. reflexivity.
Qed.

Lemma in_step_level (src : source) (N : nat) (a target : float64)
  (s1 : OneD.state) (s : state) :
  (1 <= N)%nat -> length (X s) = N ->
  in_step s1 s -> feq a target ->
  match OneD.level src N a s1, level src 1 N target s with
  | OneD.Break s1', Break s' => in_step s1' s'
  | OneD.Next s1', Next s' => in_step s1' s'
  | OneD.Raise e1, Raise e => e1 = e
  | _, _ => False
  end.
Proof.
  intros HN Hlen (HX & Hw & Hit & Hcur & Hacc & Hths) Ha.
  unfold OneD.level, level, advance. cbv zeta. rewrite HX, Hcur.
  destruct (var_median_some N (row_sums (X s))) as (v & ->).
  { apply row_sums_nonempty, nonempty_length. lia. }
  pose proof (column_sums (X s) Hw) as Hcol.
  pose proof (median_compat _ _ Hcol) as Hu.
  set (u1 := median (OneD.column 0 (X s))) in *.
  set (u := median (row_sums (X s))) in *.
  rewrite (fge_feq u1 u a target Hu Ha).
  assert (Hths' : Forall2 feq (OneD.thresholds s1 ++ [u1])
                    (thresholds s ++ [u])).
  { apply Forall2_app; [exact Hths |]. constructor; [exact Hu | constructor]. }
  destruct (fge u target).
  - repeat split; assumption.
  - unfold select. rewrite (mask_compat _ _ u1 u Hcol Hu).
    fold (select (X s) (row_sums (X s)) u).
    destruct (resample src N (cursor s) (select (X s) (row_sums (X s)) u))
      as [X1 |] eqn:Hres; [| reflexivity].
    apply resample_inv in Hres. destruct Hres as (HlenX1 & Hin).
    assert (HwX1 : width 1 X1).
    { unfold width in *. rewrite Forall_forall in Hin, Hw |- *.
      intros row Hrow. apply Hw. eapply select_incl, Hin, Hrow. }
    unfold gibbs_pass. cbn [seq gibbs_loop].
    assert (Eprop : proposals_at src N (cursor s + N) 0
                    = randn_vec src N (cursor s + N)).
    { unfold proposals_at. f_equal. lia. }
    rewrite Eprop.
    assert (Hlenp : length (randn_vec src N (cursor s + N)) = length X1).
    { unfold randn_vec. rewrite length_map, length_seq. symmetry. exact HlenX1. }
    rewrite (gibbs_one_column u1 u X1 _ HwX1 Hlenp Hu).
    pose proof (gibbs_coord_width u 0 1 X1 (randn_vec src N (cursor s + N)) HwX1)
      as HwX2.
    destruct (gibbs_coord u 0 X1 (randn_vec src N (cursor s + N)))
      as [X2 acc]. cbn [fst] in HwX2.
    unfold accept_rate, OneD.accept_rate. cbn [Nat.eqb Nat.add].
    rewrite Nat.mul_1_r.
    destruct (N =? 0)%nat; unfold in_step;
      cbn [OneD.X OneD.iteration OneD.cursor OneD.accept_rates OneD.thresholds
           X iteration cursor accept_rates thresholds];
      rewrite Hit, Hacc; repeat split; try assumption; lia.
Qed.

Lemma in_step_loop (src : source) (N : nat) (a target : float64)
  (fuel : nat) (s1 : OneD.state) (s : state) :
  (1 <= N)%nat -> length (X s) = N ->
  in_step s1 s -> feq a target ->
  match OneD.level_loop fuel src N a s1, level_loop fuel src 1 N target s with
  | OneD.Returned r1, Returned r =>
      OneD.K r1 = K r
      /\ OneD.probability r1 = probability r
      /\ OneD.res_accept_rates r1 = res_accept_rates r
      /\ Forall2 feq (OneD.res_thresholds r1) (res_thresholds r)
  | OneD.Running s1', Running s' => in_step s1' s'
  | OneD.Raised e1, Raised e => e1 = e
  | _, _ => False
  end.
Proof.
  intros HN. revert s1 s.
  induction fuel as [| fuel IH]; intros s1 s Hlen Hin Ha;
    cbn [OneD.level_loop level_loop]; [exact Hin |].
  pose proof (in_step_level src N a target s1 s HN Hlen Hin Ha) as Hstep.
  pose proof (shaped_next src 1 N target s) as Hshape.
  destruct (OneD.level src N a s1) as [s1' | s1' | e1],
           (level src 1 N target s) as [s' | s' | e]; try contradiction.
  - destruct Hstep as (_ & _ & Hit & _ & Hacc & Hths).
    cbn [OneD.finish finish OneD.K K OneD.probability probability
         OneD.res_accept_rates res_accept_rates OneD.res_thresholds
         res_thresholds].
    rewrite Hit. repeat split; assumption.
  - apply IH; [| exact Hstep | exact Ha].
    apply (Hshape s'); [| reflexivity].
    split; [exact Hlen | apply Hin].
  - exact Hstep.
Qed.

Lemma feq_unit_target (a : float64) : feq a (fmul_int 1 a).
Proof. destruct a; cbn [fmul_int feq]; try exact I. ring. Qed.

(** X16: for N >= 1, on the same stream of draws, [nested_sampling_1d(a, N)]
    and [nested_sampling(1, a, N)] behave alike after every number of
    iterations: both have returned, with the same K, the same probability,
    the same acceptance rates and thresholds that are equal as numbers; or
    both have raised the same error; or both are still looping on the same
    population with the same records.  (With N = 0 they part ways: only
    [nested_sampling] calls [np.percentile], which raises on the empty
    vector.) *)
Theorem one_dimensional_agrees (fuel : nat) (src : source) (a : float64)
  (N : Z) :
  (1 <= N)%Z ->
  match OneD.nested_sampling_1d fuel src a N,
        nested_sampling fuel src 1 a N with
  | OneD.Returned r1, Returned r =>
      OneD.K r1 = K r
      /\ OneD.probability r1 = probability r
      /\ OneD.res_accept_rates r1 = res_accept_rates r
      /\ Forall2 feq (OneD.res_thresholds r1) (res_thresholds r)
  | OneD.Running s1, Running s =>
      OneD.X s1 = X s
      /\ OneD.iteration s1 = iteration s
      /\ OneD.accept_rates s1 = accept_rates s
      /\ Forall2 feq (OneD.thresholds s1) (thresholds s)
  | OneD.Raised e1, Raised e => e1 = e
  | _, _ => False
  end.
Proof.
  intros HN. unfold OneD.nested_sampling_1d, nested_sampling.
  change (1 <? 0)%Z with false. rewrite orb_false_r.
  replace (N <? 0)%Z with false by (symmetry; apply Z.ltb_ge; lia).
  change (Z.to_nat 1) with 1%nat.
  assert (Hin : in_step (OneD.initial src (Z.to_nat N))
                  (initial src 1 (Z.to_nat N))).
  { unfold in_step, OneD.initial, initial.
    cbn [OneD.X OneD.iteration OneD.cursor OneD.accept_rates OneD.thresholds
         X iteration cursor accept_rates thresholds].
    repeat split; try lia; try constructor.
    apply (initial_shaped src 1 (Z.to_nat N)). }
  assert (HN' : (1 <= Z.to_nat N)%nat) by lia.
  assert (Hlen : length (X (initial src 1 (Z.to_nat N))) = Z.to_nat N)
    by apply (initial_shaped src 1 (Z.to_nat N)).
  pose proof (in_step_loop src (Z.to_nat N) a (fmul_int 1 a) fuel _ _
                HN' Hlen Hin (feq_unit_target a)) as H.
  destruct (OneD.level_loop _ _ _ _ _) as [r1 | e1 | s1],
           (level_loop _ _ _ _ _ _) as [r | e | s]; try contradiction.
  - exact H.
  - exact H.
  - destruct H as (HX & _ & Hit & _ & Hacc & Hths). repeat split; assumption.
Qed.

Lemma one_dimensional_agrees_witness :
  match OneD.nested_sampling_1d 5 ramp_source (Fin 2) 3,
        nested_sampling 5 ramp_source 1 (Fin 2) 3 with
  | OneD.Returned r1, Returned r =>
      OneD.K r1 = K r
      /\ OneD.probability r1 = probability r
      /\ OneD.res_accept_rates r1 = res_accept_rates r
      /\ Forall2 feq (OneD.res_thresholds r1) (res_thresholds r)
  | OneD.Running s1, Running s =>
      OneD.X s1 = X s
      /\ OneD.iteration s1 = iteration s
      /\ OneD.accept_rates s1 = accept_rates s
      /\ Forall2 feq (OneD.thresholds s1) (thresholds s)
  | OneD.Raised e1, Raised e => e1 = e
  | _, _ => False
  end.
Proof. apply (one_dimensional_agrees 5 ramp_source (Fin 2) 3). lia. Defined.

(** ** What [plot_diagnostics] draws *)

Lemma np_diff_length (x : float64) (l : list float64) :
  length (np_diff (x :: l)) = length l.
Proof.
  revert x. induction l as [| y l IH]; intros x; [reflexivity |].
  change (np_diff (x :: y :: l)) with (fsub y x :: np_diff (y :: l)).
  cbn [length]. rewrite IH. reflexivity.
Qed.

Lemma np_diff_nth (x : float64) (l : list float64) (k : nat) :
  (k < length l)%nat ->
  nth k (np_diff (x :: l)) NaN = fsub (nth k l NaN) (nth k (x :: l) NaN).
Proof.
  revert x k. induction l as [| y l IH]; intros x k Hk; simpl in Hk; [lia |].
  change (np_diff (x :: y :: l)) with (fsub y x :: np_diff (y :: l)).
  destruct k as [| k]; [reflexivity |].
  cbn [nth]. rewrite IH by lia. reflexivity.
Qed.

Lemma finite_thresholds_next (src : source) (n N : nat) (target : float64)
  (st st' : state) :
  (1 <= N)%nat ->
  shaped n N st /\ Forall (fun u => is_finite u = true) (thresholds st) ->
  level src n N target st = Next st' ->
  shaped n N st' /\ Forall (fun u => is_finite u = true) (thresholds st').
Proof.
  intros HN (Hsh & Hfin) Hstep.
  split; [eapply shaped_next; eassumption |].
  apply level_next in Hstep. cbv zeta in Hstep.
  destruct Hstep as (_ & _ & -> & _).
  apply Forall_app. split; [exact Hfin |]. constructor; [| constructor].
  destruct (median_finite (row_sums (X st))) as (m & -> & _); [| reflexivity].
  apply nonempty_length. unfold row_sums. rewrite length_map.
  destruct Hsh as (-> & _). exact HN.
Qed.

(** X18: for the result of a returned call with N >= 1, the data that
    [plot_diagnostics] prepares are well formed: [increments] has exactly
    as many entries as [levels] (K + 1), so the two can be plotted against
    each other; its first entry is the first threshold; and every variance
    whose [log10] is taken is a positive finite number. *)
Theorem diagnostics_data (fuel : nat) (src : source) (n : Z) (a : float64)
  (N : Z) (r : result) :
  (1 <= N)%Z ->
  nested_sampling fuel src n a N = Returned r ->
  length (increments (res_thresholds r)) = length (levels (res_thresholds r))
  /\ length (levels (res_thresholds r)) = S (K r)
  /\ feq (nth 0 (increments (res_thresholds r)) NaN)
         (nth 0 (res_thresholds r) NaN)
  /\ Forall (fun v => exists q, v = Fin q /\ 0 < q)
            (plotted_vars (res_vars_median r)).
Proof.
  intros HN Hret. unfold increments, levels.
  rewrite np_diff_length, length_seq.
  assert (HN' : (1 <= Z.to_nat N)%nat) by lia.
  unfold nested_sampling in Hret.
  destruct ((N <? 0)%Z || (n <? 0)%Z); [discriminate |].
  set (st0 := initial src (Z.to_nat n) (Z.to_nat N)) in *.
  pose proof (loop_counted src (Z.to_nat n) (Z.to_nat N) (fmul_int n a) fuel
                st0 (initial_counted _ _ _)) as Hc.
  pose proof (loop_invariant src (Z.to_nat n) (Z.to_nat N) (fmul_int n a)
                (fun st => shaped (Z.to_nat n) (Z.to_nat N) st
                           /\ Forall (fun u => is_finite u = true)
                                     (thresholds st))
                (fun st st' => finite_thresholds_next src _ _ _ st st' HN')
                fuel st0 (conj (initial_shaped _ _ _) (Forall_nil _))) as Hi.
  pose proof (loop_invariant src (Z.to_nat n) (Z.to_nat N) (fmul_int n a)
                (fun st => Forall positive_or_inf (vars_median st))
                (fun st st' => vars_next src _ _ _ st st' HN')
                fuel st0 (Forall_nil _)) as Hv.
  rewrite Hret in Hc, Hi, Hv.
  destruct Hc as (_ & Hlen & _).
  destruct Hi as (last & st' & (Hsh & Hfin) & Hb & Hr).
  assert (Hfin' : Forall (fun u => is_finite u = true) (res_thresholds r)).
  { rewrite Hr. cbn [finish res_thresholds].
    pose proof Hb as Hb'. apply level_break in Hb'.
    destruct Hb' as (_ & _ & -> & _).
    apply Forall_app. split; [exact Hfin |]. constructor; [| constructor].
    destruct (median_finite (row_sums (X last))) as (m & -> & _);
      [| reflexivity].
    apply nonempty_length. unfold row_sums. rewrite length_map.
    destruct Hsh as (-> & _). exact HN'. }
  split; [reflexivity |]. split; [exact Hlen |]. split.
  - rewrite np_diff_nth by lia. cbn [nth].
    destruct (res_thresholds r) as [| u ths]; [simpl in Hlen; lia |].
    cbn [nth]. pose proof (Forall_inv Hfin') as Hu.
    destruct u as [| | q |]; try discriminate. cbn [fsub feq]. ring.
  - destruct Hv as (last' & st'' & Hvars & Hb' & Hr').
    assert (Hall : Forall positive_or_inf (res_vars_median r)).
    { rewrite Hr'. cbn [finish res_vars_median].
      apply level_break in Hb'.
      destruct Hb' as (_ & _ & _ & (v & Hv & ->) & _).
      apply Forall_app. split; [exact Hvars |].
      constructor; [exact (var_median_positive _ _ _ HN' Hv) | constructor]. }
    unfold plotted_vars. apply Forall_forall. intros v Hin.
    apply filter_In in Hin. destruct Hin as (Hin & Hf).
    rewrite Forall_forall in Hall. destruct (Hall v Hin) as [-> | Hpos];
      [discriminate | exact Hpos].
Qed.

Lemma diagnostics_data_witness :
  exists r,
    nested_sampling 5 ramp_source 2 (Fin 20) 4 = Returned r
    /\ length (increments (res_thresholds r)) = 3%nat
    /\ Forall (fun v => exists q, v = Fin q /\ 0 < q)
              (plotted_vars (res_vars_median r)).
Proof.
  eexists. split; [vm_compute; reflexivity |].
  pose proof (diagnostics_data 5 ramp_source 2 (Fin 20) 4 _ ltac:(lia)
                ltac:(vm_compute; reflexivity)) as H.
  destruct H as (H1 & H2 & _ & H5).
  split; [rewrite H1, H2; reflexivity | exact H5].
Defined.
